(** * gapic-showcase: the Showcase server handlers

    A shallow embedding of the handlers of [ShowcaseServer] in package
    [server]: the scripted-retry sequencer ([SetupRetry], [Retry]), the pagination
    engine ([Pagination]), the streaming echo handlers ([Expand], [Collect])
    and the latency simulator ([Timeout]).

    Conventions.
    - Go's [int32], [int64] and [int] are integers of [Z] with the
      wrap-around of the conversions and additions written out ([wrap]).
      [int] is 64 bits wide, as on the 64-bit platforms the server is
      built for.
    - A Go string is a [string]: a sequence of bytes.
    - A handler returning [(resp, err)] returns a pair of options, [None]
      standing for Go's [nil]; an indexing panic is a result of its own.
    - [ShowcaseServer.mu] serialises the handlers that touch the retry
      table, so a handler is one atomic step on the table.
    - The injected clock [nowF] is an input of the step (the second it
      reads), the injected [sleepF] an output (the duration it is given). *)

From Stdlib Require Import ZArith Lia Ascii.
From stdpp Require Import base gmap strings list list_numbers.

Local Open Scope Z_scope.

(* ===================================================================== *)
(** * Machine integers *)
(* ===================================================================== *)

(** The value of an integer after conversion to a signed type of [bits]
    bits (Go: conversions between integer types and signed arithmetic
    both wrap around). *)
Definition wrap (bits z : Z) : Z :=
  (z + 2 ^ (bits - 1)) mod 2 ^ bits - 2 ^ (bits - 1).

Definition int32 (z : Z) : Z := wrap 32 z.
Definition int64 (z : Z) : Z := wrap 64 z.

Definition minInt32 : Z := - 2 ^ 31.
Definition maxInt32 : Z := 2 ^ 31 - 1.
Definition minInt64 : Z := - 2 ^ 63.
Definition maxInt64 : Z := 2 ^ 63 - 1.

(** Well-formedness of a value for its Go type. *)
Definition isInt32 (z : Z) : Prop := minInt32 <= z <= maxInt32.
Definition isInt64 (z : Z) : Prop := minInt64 <= z <= maxInt64.

(* ===================================================================== *)
(** * google.rpc.Status, grpc codes and grpc status *)
(* ===================================================================== *)

Module codes.
Definition OK : Z := 0.
Definition InvalidArgument : Z := 3.
Definition NotFound : Z := 5.
End codes.

(** [statuspb.Status]: the error descriptor a request carries. [Details]
    holds the packed detail messages as opaque byte strings. *)
Record Status := mkStatus {
  Code : Z;
  Message : string;
  Details : list string;
}.

(** Go's [error] values met by the handlers: [io.EOF], an error built by
    package [status] from a status proto, an error of [ptypes.Duration],
    and any other error of the transport. *)
Inductive durationFault :=
| NilDuration
| SecondsOutOfRange
| NanosOutOfRange
| SignsDiffer
| DurationOutOfRange.

Inductive error :=
| EOF
| StatusError (s : Status)
| DurationError (f : durationFault)
| TransportError (text : string).

Module status.
(** [status.FromProto(s).Code()]: a nil proto has code OK. *)
Definition CodeOf (s : option Status) : Z :=
  match s with
  | Some st => Code st
  | None => codes.OK
  end.

(** [status.ErrorProto(s)] is [FromProto(s).Err()]: nil when the code is
    OK (or the proto is nil), otherwise an error carrying the proto. *)
Definition ErrorProto (s : option Status) : option error :=
  match s with
  | Some st => if Code st =? codes.OK then None else Some (StatusError st)
  | None => None
  end.

(** [status.Error(c, msg)] and [status.Errorf(c, format, ...)], the
    message already formatted. *)
Definition Error (c : Z) (msg : string) : error :=
  StatusError {| Code := c; Message := msg; Details := [] |}.
End status.

(* ===================================================================== *)
(** * strconv *)
(* ===================================================================== *)

Module strconv.
Definition digitChar (d : Z) : ascii := ascii_of_N (Z.to_N (48 + d)).

(** The loop of [formatBits] for base 10: the digits of [u] are written
    right to left in front of [acc]. The fuel bounds the number of
    digits. *)
Fixpoint formatDigits (fuel : nat) (u : Z) (acc : string) : string :=
  match fuel with
  | O => acc
  | S fuel' =>
      let acc' := String (digitChar (u mod 10)) acc in
      if u <? 10 then acc' else formatDigits fuel' (u / 10) acc'
  end.

Definition formatUint (u : Z) : string :=
  formatDigits (S (Z.to_nat (Z.log2 u))) u "".

(** [strconv.Itoa(i)], also what [fmt.Sprintf] prints for the verb d. *)
Definition Itoa (i : Z) : string :=
  if i <? 0 then String "-" (formatUint (- i)) else formatUint i.

Definition digitVal (c : ascii) : option Z :=
  let n := Z.of_N (N_of_ascii c) in
  if (48 <=? n) && (n <=? 57) then Some (n - 48) else None.

Fixpoint parseDigits (s : string) (acc : Z) : option Z :=
  match s with
  | EmptyString => Some acc
  | String c s' =>
      match digitVal c with
      | Some d => parseDigits s' (acc * 10 + d)
      | None => None
      end
  end.

(** An optional sign followed by one or more decimal digits. *)
Definition parseInt (s : string) : option Z :=
  match s with
  | EmptyString => None
  | String c rest =>
      let signed := orb (Ascii.eqb c "-") (Ascii.eqb c "+") in
      let body := if signed then rest else s in
      match body with
      | EmptyString => None
      | _ =>
          match parseDigits body 0 with
          | Some n => Some (if Ascii.eqb c "-" then - n else n)
          | None => None
          end
      end
  end.

(** [strconv.Atoi(s)]: [None] stands for a non-nil error (a syntax error,
    or a value out of the range of [int], which is 64 bits wide); the
    handlers read the value only when the error is nil. *)
Definition Atoi (s : string) : option Z :=
  match parseInt s with
  | Some v => if (minInt64 <=? v) && (v <=? maxInt64) then Some v else None
  | None => None
  end.
End strconv.

(* ===================================================================== *)
(** * strings *)
(* ===================================================================== *)

Module strings.
Definition byteOf (c : ascii) : Z := Z.of_N (N_of_ascii c).

(** [unicode.IsSpace] on the rune at the head of [s], read as UTF-8: the
    width in bytes of that rune when it is white space, 0 when it is not
    (or [s] is empty). The white space runes are U+0009 to U+000D,
    U+0020, U+0085, U+00A0, U+1680, U+2000 to U+200A, U+2028, U+2029,
    U+202F, U+205F and U+3000; each is matched by its encoding. A lead
    byte is never a continuation byte, so the decoder of [range] stands
    at every byte where one of these encodings starts. *)
Definition spaceWidth (s : string) : nat :=
  match s with
  | EmptyString => 0%nat
  | String c0 s1 =>
      let b0 := byteOf c0 in
      if ((9 <=? b0) && (b0 <=? 13)) || (b0 =? 32) then 1%nat
      else
        match s1 with
        | EmptyString => 0%nat
        | String c1 s2 =>
            let b1 := byteOf c1 in
            if (b0 =? 0xC2) && ((b1 =? 0x85) || (b1 =? 0xA0)) then 2%nat
            else
              match s2 with
              | EmptyString => 0%nat
              | String c2 _ =>
                  let b2 := byteOf c2 in
                  if (b0 =? 0xE1) && (b1 =? 0x9A) && (b2 =? 0x80) then 3%nat
                  else if (b0 =? 0xE2) && (b1 =? 0x80)
                          && (((0x80 <=? b2) && (b2 <=? 0x8A))
                              || (b2 =? 0xA8) || (b2 =? 0xA9) || (b2 =? 0xAF))
                  then 3%nat
                  else if (b0 =? 0xE2) && (b1 =? 0x81) && (b2 =? 0x9F) then 3%nat
                  else if (b0 =? 0xE3) && (b1 =? 0x80) && (b2 =? 0x80) then 3%nat
                  else 0%nat
              end
        end
  end.

(** The field under construction, closed at a white space rune or at
    the end of the string: an empty one is no field. *)
Definition flush (cur : string) : list string :=
  match cur with
  | EmptyString => []
  | _ => [cur]
  end.

(** [skip] counts the bytes still to pass of the white space rune the
    scan is inside of; [cur] is the field read so far. *)
Fixpoint fieldsLoop (s : string) (skip : nat) (cur : string) : list string :=
  match s with
  | EmptyString => flush cur
  | String c s' =>
      match skip with
      | S k => fieldsLoop s' k cur
      | O =>
          match spaceWidth s with
          | O => fieldsLoop s' 0 (cur +:+ String c EmptyString)
          | S k => flush cur ++ fieldsLoop s' k EmptyString
          end
      end
  end.

(** [strings.Fields(s)]: the maximal runs of runes that are not white
    space, in order. *)
Definition Fields (s : string) : list string := fieldsLoop s 0 EmptyString.

(** [strings.Join(elems, sep)]. *)
Fixpoint Join (elems : list string) (sep : string) : string :=
  match elems with
  | [] => EmptyString
  | x :: rest =>
      match rest with
      | [] => x
      | _ :: _ => x +:+ sep +:+ Join rest sep
      end
  end.
End strings.

(* ===================================================================== *)
(** * ptypes: google.protobuf.Duration to time.Duration *)
(* ===================================================================== *)

Module durpb.
(** [durpb.Duration]: [Seconds] is an int64, [Nanos] an int32. *)
Record Duration := mkDuration {
  Seconds : Z;
  Nanos : Z;
}.
End durpb.

Module time.
(** A [time.Duration] is an int64 count of nanoseconds. *)
Definition Nanosecond : Z := 1.
Definition Second : Z := 1000000000.
End time.

Module ptypes.
(** [int64(10000 * 365.25 * 24 * 60 * 60)]. *)
Definition maxSeconds : Z := 315576000000.
Definition minSeconds : Z := - maxSeconds.

Definition validateDuration (d : option durpb.Duration) : option error :=
  match d with
  | None => Some (DurationError NilDuration)
  | Some d =>
      if (durpb.Seconds d <? minSeconds) || (durpb.Seconds d >? maxSeconds)
      then Some (DurationError SecondsOutOfRange)
      else if (durpb.Nanos d <=? - 1000000000) || (durpb.Nanos d >=? 1000000000)
      then Some (DurationError NanosOutOfRange)
      else if ((durpb.Seconds d <? 0) && (durpb.Nanos d >? 0))
              || ((durpb.Seconds d >? 0) && (durpb.Nanos d <? 0))
      then Some (DurationError SignsDiffer)
      else None
  end.

(** [ptypes.Duration(p)]: the duration and a nil error, or 0 and the
    error. The product and the sum are int64 operations; the division
    truncates toward zero. *)
Definition Duration (p : option durpb.Duration) : Z * option error :=
  match validateDuration p, p with
  | Some err, _ => (0, Some err)
  | None, None => (0, Some (DurationError NilDuration))
  | None, Some p =>
      let d := int64 (durpb.Seconds p * time.Second) in
      if negb (int64 (Z.quot d time.Second) =? durpb.Seconds p)
      then (0, Some (DurationError DurationOutOfRange))
      else if negb (durpb.Nanos p =? 0) then
        let d' := int64 (d + int64 (durpb.Nanos p * time.Nanosecond)) in
        if negb (Bool.eqb (d' <? 0) (durpb.Nanos p <? 0))
        then (0, Some (DurationError DurationOutOfRange))
        else (d', None)
      else (d, None)
  end.
End ptypes.

(* ===================================================================== *)
(** * Messages *)
(* ===================================================================== *)

(** Modelled from the spec: the request and response messages of package
    [genproto] (imported as [pb]), whose generated code is not among the
    sources. Each record has the fields the handlers read through the
    getters ([GetContent], [GetError], ...); an absent message field is
    [None], as the getter returns nil for it. The int32 fields hold
    integers between [minInt32] and [maxInt32]. *)
Record EchoRequest := mkEchoRequest {
  EchoRequest_Content : string;
  EchoRequest_Error : option Status;
}.

Record EchoResponse := mkEchoResponse {
  EchoResponse_Content : string;
}.

Record ExpandRequest := mkExpandRequest {
  ExpandRequest_Content : string;
  ExpandRequest_Error : option Status;
}.

Record TimeoutResponse := mkTimeoutResponse {
  TimeoutResponse_Content : string;
}.

Record TimeoutRequest := mkTimeoutRequest {
  ResponseDelay : option durpb.Duration;
  TimeoutRequest_Error : option Status;
  Success : option TimeoutResponse;
}.

Record SetupRetryRequest := mkSetupRetryRequest {
  SetupRetryRequest_Responses : list Status;
}.

Record RetryId := mkRetryId {
  Id : string;
}.

Record PaginationRequest := mkPaginationRequest {
  PageSize : Z;
  PageSizeOverride : Z;
  PageToken : string;
  MaxResponse : Z;
}.

Record PaginationResponse := mkPaginationResponse {
  PaginationResponse_Responses : list Z;
  NextPageToken : string;
}.

(** [empty.Empty], the message without fields. *)
Module emptypb.
Inductive Empty := mkEmpty.
End emptypb.

(** What a unary handler does on a call: it returns [(resp, err)], or
    the goroutine panics. *)
Inductive outcome (A : Type) :=
| Returned (resp : option A) (err : option error)
| Panicked.
Arguments Returned {A} resp err.
Arguments Panicked {A}.

(* ===================================================================== *)
(** * The server *)
(* ===================================================================== *)

(** [ShowcaseServer]: the retry table. A nil map reads as the empty map,
    and [SetupRetry] allocates it on first use, so both are [∅]. The
    operation store is not touched by the handlers below. *)
Record ShowcaseServer := mkShowcaseServer {
  retryStore : gmap string (list Status);
}.

Definition NewShowcaseServer : ShowcaseServer :=
  {| retryStore := ∅ |}.

(** ** SetupRetry and Retry *)

(** The id [SetupRetry] prints from the second [now] its clock reads:
    [fmt.Sprintf] with the verb d on [s.nowF().UTC().Unix()]. *)
Definition retryIdAt (now : Z) : string :=
  "retry-test-" +:+ strconv.Itoa now.

(** The responses of a request are the status protos it was decoded
    to: none is a nil pointer. The slice is stored as it is; no handler
    writes to its elements. *)
Definition SetupRetry (s : ShowcaseServer) (now : Z) (in_ : SetupRetryRequest)
  : ShowcaseServer * outcome RetryId :=
  if (length (SetupRetryRequest_Responses in_) =? 0)%nat then
    (s, Returned None
          (Some (status.Error codes.InvalidArgument
                   "A list of responses must be specified.")))
  else
    let id := retryIdAt now in
    ({| retryStore := <[id := SetupRetryRequest_Responses in_]> (retryStore s) |},
     Returned (Some {| Id := id |}) None).

(** [resps[0]] panics on an empty slice: the case [Some []]. The deferred
    unlock runs, and the table is as it was. *)
Definition Retry (s : ShowcaseServer) (in_ : RetryId)
  : ShowcaseServer * outcome emptypb.Empty :=
  if String.eqb (Id in_) EmptyString then
    (s, Returned None
          (Some (status.Error codes.InvalidArgument "An Id must be specified.")))
  else
    match retryStore s !! Id in_ with
    | None =>
        (s, Returned None
              (Some (status.Error codes.NotFound
                       ("Retry with Id: " +:+ Id in_ +:+ " was not found."))))
    | Some [] => (s, Panicked)
    | Some (resp :: resps) =>
        if status.CodeOf (Some resp) =? codes.OK then
          ({| retryStore := delete (Id in_) (retryStore s) |},
           Returned (Some emptypb.mkEmpty) None)
        else
          ({| retryStore :=
                if (length resps =? 0)%nat
                then delete (Id in_) (retryStore s)
                else <[Id in_ := resps]> (retryStore s) |},
           Returned None (status.ErrorProto (Some resp)))
    end.

(** ** Pagination *)

(** The loop [for i := start; i < end; i++ { page = append(page, i) }].
    The fuel bounds the number of rounds; [Pagination] gives it the
    length of the window, with which the loop leaves by its test. *)
Fixpoint pageLoop (fuel : nat) (i end_ : Z) (page : list Z) : list Z :=
  match fuel with
  | O => page
  | S fuel' =>
      if i <? end_ then pageLoop fuel' (int32 (i + 1)) end_ (page ++ [i])
      else page
  end.

(** The handler up to the loop: the error it returns, or [start], [end]
    and [nextToken]. *)
Definition paginationWindow (in_ : PaginationRequest) : error + (Z * Z * string) :=
  if (PageSize in_ <? 0) || (PageSizeOverride in_ <? 0) then
    inl (status.Error codes.InvalidArgument
           "The page size provided must not be negative.")
  else if MaxResponse in_ <=? 0 then
    inl (status.Error codes.InvalidArgument
           "The maximum response provided must be positive.")
  else
    let invalidToken :=
      status.Error codes.InvalidArgument
        ("Invalid page token: " +:+ PageToken in_
         +:+ ". Token must be within the range [0, request.MaxResponse]") in
    let decoded :=
      if String.eqb (PageToken in_) EmptyString then inr 0
      else
        match strconv.Atoi (PageToken in_) with
        | None => inl invalidToken
        | Some token =>
            let token32 := int32 token in
            if (token32 <? 0) || (token32 >? MaxResponse in_)
            then inl invalidToken
            else inr token32
        end in
    match decoded with
    | inl err => inl err
    | inr start =>
        let actualSize :=
          if PageSizeOverride in_ >? 0 then PageSizeOverride in_
          else PageSize in_ in
        let end0 := int32 (start + actualSize) in
        let end1 := if actualSize =? 0 then MaxResponse in_ else end0 in
        let end_ := if end1 >? MaxResponse in_ then MaxResponse in_ else end1 in
        let nextToken :=
          if end_ <? MaxResponse in_ then strconv.Itoa end_ else EmptyString in
        inr (start, end_, nextToken)
    end.

Definition Pagination (in_ : PaginationRequest) : outcome PaginationResponse :=
  match paginationWindow in_ with
  | inl err => Returned None (Some err)
  | inr (start, end_, nextToken) =>
      Returned
        (Some {| PaginationResponse_Responses :=
                   pageLoop (Z.to_nat (end_ - start)) start end_ [];
                 NextPageToken := nextToken |})
        None
  end.

(** The integers from [lo] up to [hi], [hi] excluded. *)
Definition rangeZ (lo hi : Z) : list Z := seqZ lo (hi - lo).

(** The window of the specification: the effective page size, and the
    end of the window that starts at [start]. *)
Definition effectiveSize (in_ : PaginationRequest) : Z :=
  if PageSizeOverride in_ >? 0 then PageSizeOverride in_ else PageSize in_.

Definition windowEnd (in_ : PaginationRequest) (start : Z) : Z :=
  Z.min
    (start + (if effectiveSize in_ =? 0 then MaxResponse in_ else effectiveSize in_))
    (MaxResponse in_).

Definition windowToken (in_ : PaginationRequest) (start : Z) : string :=
  if windowEnd in_ start <? MaxResponse in_
  then strconv.Itoa (windowEnd in_ start)
  else EmptyString.

(** A request whose sizes are valid: int32 values, the page sizes not
    negative, the maximum positive. *)
Definition validSizes (in_ : PaginationRequest) : Prop :=
  0 <= PageSize in_ <= maxInt32 /\
  0 <= PageSizeOverride in_ <= maxInt32 /\
  0 < MaxResponse in_ <= maxInt32.

(** The start a valid page token stands for: 0 for the empty token, else
    the integer it parses to, between 0 and the maximum. *)
Definition tokenStart (in_ : PaginationRequest) (start : Z) : Prop :=
  (PageToken in_ = EmptyString /\ start = 0) \/
  (PageToken in_ <> EmptyString /\ strconv.Atoi (PageToken in_) = Some start /\
   0 <= start <= MaxResponse in_).

(** The same request with another page token. *)
Definition withToken (in_ : PaginationRequest) (token : string) : PaginationRequest :=
  {| PageSize := PageSize in_;
     PageSizeOverride := PageSizeOverride in_;
     PageToken := token;
     MaxResponse := MaxResponse in_ |}.

(** How the paging of a client ends: with the empty token, with a call
    that fails, or with the fuel of the model used up. *)
Inductive pagingEnd :=
| Exhausted
| Failed (err : option error)
| OutOfFuel.

(** How a client pages through a listing: it calls [Pagination] with the
    token of the previous response, from [token] on, until a response
    carries the empty token. The result is the pages received and how
    the paging ended; the fuel bounds the number of calls. *)
Fixpoint paginateAll (fuel : nat) (in_ : PaginationRequest) (token : string)
  : list (list Z) * pagingEnd :=
  match fuel with
  | O => ([], OutOfFuel)
  | S fuel' =>
      match Pagination (withToken in_ token) with
      | Returned (Some resp) None =>
          if String.eqb (NextPageToken resp) EmptyString
          then ([PaginationResponse_Responses resp], Exhausted)
          else
            let '(pages, how) := paginateAll fuel' in_ (NextPageToken resp) in
            (PaginationResponse_Responses resp :: pages, how)
      | Returned _ err => ([], Failed err)
      | Panicked => ([], Failed None)
      end
  end.

(** ** Expand *)

(** The sending half of a server stream ([pb.Showcase_ExpandServer]):
    the messages the transport has accepted so far, and the answer of the
    transport to a [Send] made when [k] messages have been accepted, [None]
    for nil. *)
Record ExpandServer := mkExpandServer {
  sent : list EchoResponse;
  sendFault : nat -> option error;
}.

Definition Send (stream : ExpandServer) (m : EchoResponse)
  : ExpandServer * option error :=
  match sendFault stream (length (sent stream)) with
  | Some err => (stream, Some err)
  | None =>
      ({| sent := sent stream ++ [m]; sendFault := sendFault stream |}, None)
  end.

(** The loop over [strings.Fields(in.GetContent())]. *)
Fixpoint expandLoop (words : list string) (stream : ExpandServer)
  : ExpandServer * option error :=
  match words with
  | [] => (stream, None)
  | word :: words' =>
      match Send stream {| EchoResponse_Content := word |} with
      | (stream', Some err) => (stream', Some err)
      | (stream', None) => expandLoop words' stream'
      end
  end.

Definition Expand (in_ : ExpandRequest) (stream : ExpandServer)
  : ExpandServer * option error :=
  match expandLoop (strings.Fields (ExpandRequest_Content in_)) stream with
  | (stream', Some err) => (stream', Some err)
  | (stream', None) =>
      match ExpandRequest_Error in_ with
      | Some st => (stream', status.ErrorProto (Some st))
      | None => (stream', None)
      end
  end.

(** ** Collect *)

(** The client side of a client stream ([pb.Showcase_CollectServer]): the
    messages the client sends, in order; the error [Recv] returns once
    they are all received ([EOF] when the client closed its side, another
    error when the transport broke or the call was cancelled); and the
    answer of the transport to [SendAndClose]. *)
Record CollectServer := mkCollectServer {
  inbound : list EchoRequest;
  closing : error;
  closeFault : option error;
}.

(** What the call did: the number of [Recv] calls, the response handed to
    [SendAndClose] if it was called, and the error returned. *)
Record CollectResult := mkCollectResult {
  recvCalls : nat;
  sentAndClosed : option EchoResponse;
  returned : option error;
}.

(** The loop of [Collect]: [pending] are the messages not yet received,
    [received] counts the [Recv] calls made, [resp] is the slice of
    contents. *)
Fixpoint collectLoop (pending : list EchoRequest) (closing : error)
    (closeFault : option error) (received : nat) (resp : list string)
  : CollectResult :=
  match pending with
  | [] =>
      match closing with
      | EOF =>
          {| recvCalls := S received;
             sentAndClosed :=
               Some {| EchoResponse_Content := strings.Join resp " " |};
             returned := closeFault |}
      | err =>
          {| recvCalls := S received;
             sentAndClosed := None;
             returned := Some err |}
      end
  | req :: pending' =>
      match status.ErrorProto (EchoRequest_Error req) with
      | Some s =>
          {| recvCalls := S received;
             sentAndClosed := None;
             returned := Some s |}
      | None =>
          collectLoop pending' closing closeFault (S received)
            (if String.eqb (EchoRequest_Content req) EmptyString
             then resp
             else resp ++ [EchoRequest_Content req])
      end
  end.

Definition Collect (stream : CollectServer) : CollectResult :=
  collectLoop (inbound stream) (closing stream) (closeFault stream) 0 [].

(** ** Timeout *)

(** What the call did: the duration handed to [sleepF], then the response
    and the error returned. *)
Record TimeoutResult := mkTimeoutResult {
  slept : Z;
  timeoutReturned : outcome TimeoutResponse;
}.

Definition Timeout (in_ : TimeoutRequest) : TimeoutResult :=
  let '(d, _) := ptypes.Duration (ResponseDelay in_) in
  {| slept := d;
     timeoutReturned :=
       match TimeoutRequest_Error in_ with
       | Some st => Returned None (status.ErrorProto (Some st))
       | None => Returned (Success in_) None
       end |}.

(** ** Runs of the retry sequencer *)

(** A call on the retry table. *)
Inductive call :=
| CallSetupRetry (now : Z) (in_ : SetupRetryRequest)
| CallRetry (in_ : RetryId).

Definition step (s : ShowcaseServer) (c : call) : ShowcaseServer :=
  match c with
  | CallSetupRetry now in_ => fst (SetupRetry s now in_)
  | CallRetry in_ => fst (Retry s in_)
  end.

(** The server after a sequence of calls, from the state [s]. *)
Definition runCalls (s : ShowcaseServer) (calls : list call) : ShowcaseServer :=
  fold_left step calls s.

(** [n] successive [Retry] calls with the same id: the server after them
    and what each call returned, in order. *)
Fixpoint retryTimes (n : nat) (s : ShowcaseServer) (id : string)
  : ShowcaseServer * list (outcome emptypb.Empty) :=
  match n with
  | O => (s, [])
  | S n' =>
      let '(s1, out) := Retry s {| Id := id |} in
      let '(s2, outs) := retryTimes n' s1 id in
      (s2, out :: outs)
  end.

(** What [Retry] returns for a queued outcome that is not OK, for an OK
    one, and for an id that is not in the table. *)
Definition retryFailure (st : Status) : outcome emptypb.Empty :=
  Returned None (Some (StatusError st)).

Definition retrySuccess : outcome emptypb.Empty :=
  Returned (Some emptypb.mkEmpty) None.

Definition retryNotFound (id : string) : outcome emptypb.Empty :=
  Returned None
    (Some (StatusError
             {| Code := codes.NotFound;
                Message := "Retry with Id: " +:+ id +:+ " was not found.";
                Details := [] |})).

(* ===================================================================== *)
(** * Predicates of the statements *)
(* ===================================================================== *)

(** An outcome, or an error descriptor, whose code is not OK. *)
Definition notOK (st : Status) : Prop := Code st <> codes.OK.

(** No queue of the retry table is empty. *)
Definition queuesNonEmpty (s : ShowcaseServer) : Prop :=
  forall id q, retryStore s !! id = Some q -> q <> [].

(** A message that makes [Collect] go on: it carries no error
    descriptor, or one whose code is OK. *)
Definition carriesNoError (req : EchoRequest) : Prop :=
  status.ErrorProto (EchoRequest_Error req) = None.

(** The contents of the messages that are not empty, in order. *)
Definition nonEmptyContents (msgs : list EchoRequest) : list string :=
  filter (fun c => c <> EmptyString) (map EchoRequest_Content msgs).

(** A transport that accepts every message. *)
Definition accepting (stream : ExpandServer) : Prop :=
  forall k, sendFault stream k = None.

(* ===================================================================== *)
(** * Scenarios *)
(* ===================================================================== *)

Definition unavailable : Status :=
  {| Code := 14; Message := "try again"; Details := [] |}.
Definition deadlineExceeded : Status :=
  {| Code := 4; Message := "too slow"; Details := [] |}.
Definition okStatus : Status :=
  {| Code := codes.OK; Message := EmptyString; Details := [] |}.

(** A transport that accepts every message, with nothing sent yet. *)
Definition freshStream : ExpandServer :=
  {| sent := []; sendFault := fun _ => None |}.

(** A transport that accepts one message and refuses the next. *)
Definition brokenAfterOne : ExpandServer :=
  {| sent := [];
     sendFault := fun k => match k with
                           | 1%nat => Some (TransportError "broken pipe")
                           | _ => None
                           end |}.

Definition say (content : string) : EchoRequest :=
  {| EchoRequest_Content := content; EchoRequest_Error := None |}.

Definition fail (st : Status) : EchoRequest :=
  {| EchoRequest_Content := EmptyString; EchoRequest_Error := Some st |}.

(** The text of the error for a page token the handler refuses. *)
Definition invalidTokenError (token : string) : error :=
  status.Error codes.InvalidArgument
    ("Invalid page token: " +:+ token
     +:+ ". Token must be within the range [0, request.MaxResponse]").

(** A listing as long as int32 allows, read in pages of 1000 from the
    offset 2147483000 on: 647 items are left. *)
Definition lastPageRequest : PaginationRequest :=
  {| PageSize := 1000; PageSizeOverride := 0;
     PageToken := "2147483000"; MaxResponse := 2147483647 |}.

(** A listing of ten items, with a token that stands for an offset past
    the range of int32. *)
Definition hugeTokenRequest : PaginationRequest :=
  {| PageSize := 3; PageSizeOverride := 0;
     PageToken := "4294967301"; MaxResponse := 10 |}.

(** A listing as long as int32 allows, read in pages of 2^30 items. *)
Definition twoPagesRequest : PaginationRequest :=
  {| PageSize := 1073741824; PageSizeOverride := 0;
     PageToken := EmptyString; MaxResponse := 2147483647 |}.

(* ===================================================================== *)
(** * Echo, Chat and the logging interceptor *)
(* ===================================================================== *)

(** ** Echo *)


(** ** Chat *)

(** A bidirectional stream ([pb.Showcase_ChatServer]): the receiving half
    as for [Collect], the sending half as for [Expand]. *)
Record ChatServer := mkChatServer {
  chatInbound : list EchoRequest;
  chatClosing : error;
  chatOut : ExpandServer;
}.

(** What the call did: the number of [Recv] calls, the sending half as
    the call left it, and the error returned. *)
Record ChatResult := mkChatResult {
  chatRecvCalls : nat;
  chatSent : ExpandServer;
  chatReturned : option error;
}.

(** The loop of [Chat]. What [stream.Send] returns is not read. *)
Fixpoint chatLoop (pending : list EchoRequest) (closing : error)
    (out : ExpandServer) (received : nat) : ChatResult :=
  match pending with
  | [] =>
      match closing with
      | EOF =>
          {| chatRecvCalls := S received; chatSent := out; chatReturned := None |}
      | err =>
          {| chatRecvCalls := S received; chatSent := out;
             chatReturned := Some err |}
      end
  | req :: pending' =>
      match status.ErrorProto (EchoRequest_Error req) with
      | Some s =>
          {| chatRecvCalls := S received; chatSent := out;
             chatReturned := Some s |}
      | None =>
          chatLoop pending' closing
            (fst (Send out {| EchoResponse_Content := EchoRequest_Content req |}))
            (S received)
      end
  end.

Definition Chat (stream : ChatServer) : ChatResult :=
  chatLoop (chatInbound stream) (chatClosing stream) (chatOut stream) 0.

(** ** logRequests *)

(** The line feed. *)
Definition newline : string := String (ascii_of_nat 10) EmptyString.

Section Interceptor.

(** The interceptor of [cmd/server/main.go], in the later of the two
    revisions the file holds (the earlier one differs in the text of the
    first line only), over any request, response and server state. The
    standard output is the list of the texts written to it, one per
    [fmt.Printf]; [showReq] and [showResp] are the texts of the verb +v
    for a request and a response. A handler that panics takes the
    interceptor with it. *)
Context {Req Resp St : Type}.
Variable showReq : Req -> string.
Variable showResp : option Resp -> string.

Definition logRequests (stdout : list string) (req : Req) (fullMethod : string)
    (handler : St -> Req -> St * outcome Resp) (st : St)
  : St * list string * outcome Resp :=
  let stdout1 :=
    stdout ++ ["Received Request for Method: " +:+ fullMethod +:+ newline] in
  let stdout2 := stdout1 ++ ["    Request:  " +:+ showReq req +:+ newline] in
  match handler st req with
  | (st', Returned resp err) =>
      let stdout3 :=
        match err with
        | None => stdout2 ++ ["    Response: " +:+ showResp resp +:+ newline]
        | Some _ => stdout2
        end in
      (st', stdout3 ++ [newline], Returned resp err)
  | (st', Panicked) => (st', stdout2, Panicked)
  end.

(** A sequence of unary calls, each a method name and a request, served
    one after the other until one panics: by the handlers alone, and
    through the interceptor. *)
Variable dispatch : string -> St -> Req -> St * outcome Resp.

Fixpoint serveAll (calls : list (string * Req)) (st : St)
  : St * list (outcome Resp) :=
  match calls with
  | [] => (st, [])
  | (method, req) :: calls' =>
      match dispatch method st req with
      | (st', Panicked) => (st', [Panicked])
      | (st', out) =>
          let '(st'', outs) := serveAll calls' st' in (st'', out :: outs)
      end
  end.

Fixpoint serveAllLogged (calls : list (string * Req)) (st : St)
    (stdout : list string) : St * list string * list (outcome Resp) :=
  match calls with
  | [] => (st, stdout, [])
  | (method, req) :: calls' =>
      match logRequests stdout req method (dispatch method) st with
      | (st', stdout', Panicked) => (st', stdout', [Panicked])
      | (st', stdout', out) =>
          let '(st'', stdout'', outs) := serveAllLogged calls' st' stdout' in
          (st'', stdout'', out :: outs)
      end
  end.

End Interceptor.

(** A call that returned a nil error. *)
Definition succeeded {A : Type} (out : outcome A) : bool :=
  match out with
  | Returned _ None => true
  | _ => false
  end.

Definition panicked {A : Type} (out : outcome A) : bool :=
  match out with
  | Panicked => true
  | _ => false
  end.

(* ===================================================================== *)
(** * Further predicates of the statements *)
(* ===================================================================== *)

(** The number of texts the interceptor writes for a call, by what the
    call did: two before the handler runs, one for the response of a call
    that returned a nil error, and the empty line after a call that
    returned. *)
Definition writesOf {A : Type} (out : outcome A) : nat :=
  if panicked out then 2%nat else if succeeded out then 4%nat else 3%nat.

(** No white space rune starts at a byte of [w]. *)
Fixpoint cleanWord (w : string) : Prop :=
  match w with
  | EmptyString => True
  | String _ w' => strings.spaceWidth w = 0%nat /\ cleanWord w'
  end.

(** No white space rune starts at a byte of [cur] when [rest] follows. *)
Fixpoint cleanBefore (cur rest : string) : Prop :=
  match cur with
  | EmptyString => True
  | String _ cur' =>
      strings.spaceWidth (cur +:+ rest) = 0%nat /\ cleanBefore cur' rest
  end.

(** The calls of a script that set up an entry, and the table they can
    lead to: every queue is what is left of a list that was set up under
    its id. *)
Definition fromScript (calls : list call) (s : ShowcaseServer) : Prop :=
  forall id q,
    retryStore s !! id = Some q ->
    exists now in_,
      CallSetupRetry now in_ ∈ calls /\ id = retryIdAt now /\
      q `suffix_of` SetupRetryRequest_Responses in_.

(** What a [Retry] call with the id [id] makes of the entry of that id,
    and what it returns, [q] being the entry before the call. *)
Definition nextQueue (id : string) (q : option (list Status))
  : option (list Status) :=
  if String.eqb id EmptyString then q
  else
    match q with
    | Some (resp :: (_ :: _) as resps) =>
        if Code resp =? codes.OK then None else Some resps
    | Some [_] => None
    | Some [] => Some []
    | None => None
    end.

Definition retryOutcome (id : string) (q : option (list Status))
  : outcome emptypb.Empty :=
  if String.eqb id EmptyString then
    Returned None
      (Some (status.Error codes.InvalidArgument "An Id must be specified."))
  else
    match q with
    | None => retryNotFound id
    | Some [] => Panicked
    | Some (resp :: _) =>
        if Code resp =? codes.OK then retrySuccess else retryFailure resp
    end.

(** The delay of a request is one [Timeout] sleeps for as it is: within
    about 292 years, the nanoseconds below a second, and of the sign of
    the seconds. *)
Definition plainDelay (d : durpb.Duration) : Prop :=
  Z.abs (durpb.Seconds d) <= 9223372035 /\
  - 1000000000 < durpb.Nanos d < 1000000000 /\
  (durpb.Seconds d < 0 -> durpb.Nanos d <= 0) /\
  (0 < durpb.Seconds d -> 0 <= durpb.Nanos d).

(* ===================================================================== *)
(** * Facts about machine integers *)
(* ===================================================================== *)

Section MachineIntegers.

Lemma wrap_small bits z :
  0 < bits -> - 2 ^ (bits - 1) <= z < 2 ^ (bits - 1) -> wrap bits z = z.
Proof.
  intros Hb Hz. unfold wrap.
  assert (E : 2 ^ bits = 2 * 2 ^ (bits - 1)).
  { replace bits with (Z.succ (bits - 1)) at 1 by lia.
    rewrite Z.pow_succ_r by lia. reflexivity. }
  rewrite Z.mod_small by lia. lia.
Qed.

Lemma int32_small z : isInt32 z -> int32 z = z.
Proof.
  unfold isInt32, minInt32, maxInt32, int32. intros H.
  apply wrap_small; simpl; lia.
Qed.

Lemma int32_range z : isInt32 (int32 z).
Proof.
  unfold isInt32, minInt32, maxInt32, int32, wrap.
  pose proof (Z.mod_pos_bound (z + 2 ^ (32 - 1)) (2 ^ 32) eq_refl) as H.
  change (2 ^ (32 - 1)) with 2147483648 in *.
  change (2 ^ 32) with 4294967296 in *.
  change (2 ^ 31) with 2147483648. lia.
Qed.

End MachineIntegers.

(* ===================================================================== *)
(** * Facts about strconv: printing then parsing *)
(* ===================================================================== *)

Section StrconvFacts.
Import strconv.

Lemma digitVal_digitChar d : 0 <= d < 10 -> digitVal (digitChar d) = Some d.
Proof.
  intros H.
  assert (C : d = 0 \/ d = 1 \/ d = 2 \/ d = 3 \/ d = 4 \/ d = 5 \/ d = 6
              \/ d = 7 \/ d = 8 \/ d = 9) by lia.
  repeat (destruct C as [-> | C]; [reflexivity |]). subst d. reflexivity.
Qed.

Lemma digitChar_not_sign d :
  0 <= d < 10 ->
  Ascii.eqb (digitChar d) "-" = false /\ Ascii.eqb (digitChar d) "+" = false.
Proof.
  intros H.
  assert (C : d = 0 \/ d = 1 \/ d = 2 \/ d = 3 \/ d = 4 \/ d = 5 \/ d = 6
              \/ d = 7 \/ d = 8 \/ d = 9) by lia.
  repeat (destruct C as [-> | C]; [split; reflexivity |]).
  subst d. split; reflexivity.
Qed.

(** Parsing what [formatDigits] wrote in front of [acc] is parsing [acc]
    from the value [u] on, when the fuel covers the digits of [u]. *)
Lemma parseDigits_formatDigits fuel :
  forall u acc,
    0 <= u < 2 ^ Z.of_nat fuel ->
    parseDigits (formatDigits fuel u acc) 0 = parseDigits acc u.
Proof.
  induction fuel as [|fuel IH]; intros u acc Hu.
  - simpl in Hu. assert (u = 0) by lia. subst u. reflexivity.
  - cbn [formatDigits]. destruct (Z.ltb_spec u 10) as [Hlt | Hge].
    + cbn [parseDigits]. rewrite Z.mod_small by lia.
      rewrite digitVal_digitChar by lia. f_equal.
    + rewrite IH.
      * cbn [parseDigits].
        rewrite digitVal_digitChar by (apply Z.mod_pos_bound; lia).
        f_equal. pose proof (Z.div_mod u 10 ltac:(lia)). lia.
      * rewrite Nat2Z.inj_succ, Z.pow_succ_r in Hu by lia.
        split; [apply Z.div_pos; lia |].
        apply Z.div_lt_upper_bound; lia.
Qed.

(** What [formatDigits] writes starts with a digit. *)
Lemma formatDigits_head fuel :
  forall u acc,
    0 <= u < 2 ^ Z.of_nat fuel ->
    (0 < fuel)%nat ->
    exists d rest, 0 <= d < 10 /\ formatDigits fuel u acc = String (digitChar d) rest.
Proof.
  induction fuel as [|fuel IH]; intros u acc Hu Hf; [lia |].
  cbn [formatDigits]. destruct (Z.ltb_spec u 10) as [Hlt | Hge].
  - exists (u mod 10), acc. split; [apply Z.mod_pos_bound; lia | reflexivity].
  - rewrite Nat2Z.inj_succ, Z.pow_succ_r in Hu by lia.
    apply IH.
    + split; [apply Z.div_pos; lia |]. apply Z.div_lt_upper_bound; lia.
    + destruct fuel; [simpl in Hu; lia | lia].
Qed.

Lemma formatUint_fuel u :
  0 <= u -> 0 <= u < 2 ^ Z.of_nat (S (Z.to_nat (Z.log2 u))).
Proof.
  intros Hu. split; [assumption |].
  rewrite Nat2Z.inj_succ, Z2Nat.id by apply Z.log2_nonneg.
  destruct (Z.eq_dec u 0) as [-> | Hne]; [reflexivity |].
  apply Z.log2_spec. lia.
Qed.

Lemma parseInt_formatUint u : 0 <= u -> parseInt (formatUint u) = Some u.
Proof.
  intros Hu. pose proof (formatUint_fuel u Hu) as Hf.
  destruct (formatDigits_head _ u EmptyString Hf ltac:(lia))
    as (d & rest & Hd & E).
  pose proof (parseDigits_formatDigits _ u EmptyString Hf) as P.
  unfold formatUint. rewrite E in *. unfold parseInt.
  destruct (digitChar_not_sign d Hd) as [-> ->]. cbn [orb].
  rewrite P. reflexivity.
Qed.

Lemma parseInt_Itoa i : parseInt (Itoa i) = Some i.
Proof.
  unfold Itoa. destruct (Z.ltb_spec i 0) as [Hneg | Hpos].
  - pose proof (formatUint_fuel (- i) ltac:(lia)) as Hf.
    destruct (formatDigits_head _ (- i) EmptyString Hf ltac:(lia))
      as (d & rest & Hd & E).
    pose proof (parseDigits_formatDigits _ (- i) EmptyString Hf) as P.
    unfold formatUint. rewrite E in *.
    cbn [parseInt Ascii.eqb Bool.eqb orb]. rewrite P.
    cbn [parseDigits]. f_equal. lia.
  - apply parseInt_formatUint. assumption.
Qed.

(** Printing is injective: two integers with the same decimal string are
    the same integer. *)
Lemma Itoa_inj i j : Itoa i = Itoa j -> i = j.
Proof.
  intros E. pose proof (parseInt_Itoa i) as Hi. rewrite E, parseInt_Itoa in Hi.
  congruence.
Qed.

Lemma Atoi_Itoa i : isInt64 i -> Atoi (Itoa i) = Some i.
Proof.
  unfold isInt64. intros H. unfold Atoi. rewrite parseInt_Itoa.
  destruct (Z.leb_spec minInt64 i); [| lia].
  destruct (Z.leb_spec i maxInt64); [| lia]. reflexivity.
Qed.

Lemma Itoa_nonempty i : Itoa i <> EmptyString.
Proof.
  intros E. pose proof (parseInt_Itoa i) as H. rewrite E in H. discriminate.
Qed.

End StrconvFacts.

(* ===================================================================== *)
(** * Pagination *)
(* ===================================================================== *)

(** The two size checks at the head of [Pagination], passed. *)
Ltac pass_size_checks :=
  repeat match goal with
         | |- context [PageSize ?r <? 0] =>
             destruct (Z.ltb_spec (PageSize r) 0); [lia |]
         | |- context [PageSizeOverride ?r <? 0] =>
             destruct (Z.ltb_spec (PageSizeOverride r) 0); [lia |]; cbn [orb]
         | |- context [MaxResponse ?r <=? 0] =>
             destruct (Z.leb_spec (MaxResponse r) 0); [lia |]
         end.

Section PaginationFacts.

Lemma rangeZ_empty lo hi : hi <= lo -> rangeZ lo hi = [].
Proof. intros H. apply seqZ_nil. lia. Qed.

Lemma rangeZ_first lo hi : lo < hi -> rangeZ lo hi = lo :: rangeZ (lo + 1) hi.
Proof.
  intros H. unfold rangeZ. rewrite seqZ_cons by lia.
  f_equal. f_equal; lia.
Qed.

Lemma rangeZ_split lo mid hi :
  lo <= mid <= hi -> rangeZ lo hi = rangeZ lo mid ++ rangeZ mid hi.
Proof.
  intros H. unfold rangeZ.
  replace (hi - lo) with ((mid - lo) + (hi - mid)) by lia.
  rewrite seqZ_app by lia. do 2 f_equal; lia.
Qed.

Lemma elem_of_rangeZ lo hi x : x ∈ rangeZ lo hi <-> lo <= x < hi.
Proof. unfold rangeZ. rewrite elem_of_seqZ. lia. Qed.

Lemma NoDup_rangeZ lo hi : NoDup (rangeZ lo hi).
Proof. apply NoDup_seqZ. Qed.

(** The loop appends the integers from [i] up to the end of the window,
    and nothing when the window is empty or inverted. Any fuel from the
    length of the window on gives this result: the loop leaves by its
    test. *)
Lemma pageLoop_range fuel :
  forall i end_ page,
    minInt32 <= i -> end_ <= maxInt32 ->
    (Z.to_nat (end_ - i) <= fuel)%nat ->
    pageLoop fuel i end_ page = page ++ rangeZ i end_.
Proof.
  induction fuel as [|fuel IH]; intros i end_ page Hi He Hf.
  - rewrite rangeZ_empty by lia. rewrite app_nil_r. reflexivity.
  - cbn [pageLoop]. destruct (Z.ltb_spec i end_) as [Hlt | Hge].
    + rewrite int32_small by (unfold isInt32; lia).
      rewrite IH by lia. rewrite (rangeZ_first i end_) by lia.
      rewrite <- app_assoc. reflexivity.
    + rewrite rangeZ_empty by lia. rewrite app_nil_r. reflexivity.
Qed.

(** On a request with valid sizes and a valid token, and as long as the
    sum of the start and the effective size is an int32, the handler
    computes the window of the specification. *)
Lemma paginationWindow_no_overflow in_ start :
  validSizes in_ ->
  tokenStart in_ start ->
  start + effectiveSize in_ <= maxInt32 ->
  paginationWindow in_
  = inr (start, windowEnd in_ start, windowToken in_ start).
Proof.
  unfold validSizes, tokenStart, windowToken, windowEnd, effectiveSize, maxInt32.
  intros (Hp & Ho & Hm) Htok Hsum. unfold paginationWindow.
  pass_size_checks.
  assert (Hstart : 0 <= start <= MaxResponse in_) by (destruct Htok; lia).
  assert (Hdec :
    (if String.eqb (PageToken in_) EmptyString then inr 0
     else match strconv.Atoi (PageToken in_) with
          | Some token =>
              if (int32 token <? 0) || (int32 token >? MaxResponse in_)
              then inl (status.Error codes.InvalidArgument
                          ("Invalid page token: " +:+ PageToken in_ +:+
                           ". Token must be within the range [0, request.MaxResponse]"))
              else inr (int32 token)
          | None => inl (status.Error codes.InvalidArgument
                          ("Invalid page token: " +:+ PageToken in_ +:+
                           ". Token must be within the range [0, request.MaxResponse]"))
          end) = (inr start : error + Z)).
  { destruct Htok as [[-> ->] | (Hne & -> & _)]; [reflexivity |].
    apply String.eqb_neq in Hne. rewrite Hne.
    rewrite int32_small by (unfold isInt32, minInt32, maxInt32; lia).
    destruct (Z.ltb_spec start 0); [lia |].
    destruct (Z.gtb_spec start (MaxResponse in_)); [lia |]. reflexivity. }
  cbv zeta. rewrite Hdec.
  set (a := if PageSizeOverride in_ >? 0 then PageSizeOverride in_ else PageSize in_) in *.
  assert (Ha : 0 <= a) by (subst a; destruct (PageSizeOverride in_ >? 0); lia).
  rewrite (int32_small (start + a)) by (unfold isInt32, minInt32, maxInt32; lia).
  destruct (Z.eqb_spec a 0) as [Hz | Hnz].
  - destruct (Z.gtb_spec (MaxResponse in_) (MaxResponse in_)); [lia |].
    rewrite Z.min_r by lia. reflexivity.
  - destruct (Z.gtb_spec (start + a) (MaxResponse in_)).
    + rewrite Z.min_r by lia. reflexivity.
    + rewrite Z.min_l by lia. reflexivity.
Qed.

Lemma windowEnd_bounds in_ start :
  validSizes in_ -> 0 <= start <= MaxResponse in_ ->
  start <= windowEnd in_ start <= MaxResponse in_.
Proof.
  unfold validSizes, windowEnd, effectiveSize. intros (Hp & Ho & Hm) Hs.
  destruct (PageSizeOverride in_ >? 0);
    match goal with |- context [if ?a =? 0 then _ else _] =>
      destruct (Z.eqb_spec a 0) end; lia.
Qed.

Lemma Pagination_no_overflow in_ start :
  validSizes in_ ->
  tokenStart in_ start ->
  start + effectiveSize in_ <= maxInt32 ->
  Pagination in_
  = Returned
      (Some {| PaginationResponse_Responses := rangeZ start (windowEnd in_ start);
               NextPageToken := windowToken in_ start |})
      None.
Proof.
  intros Hv Htok Hsum. unfold Pagination.
  rewrite (paginationWindow_no_overflow in_ start Hv Htok Hsum).
  assert (Hstart : 0 <= start <= MaxResponse in_)
    by (destruct Htok as [[_ ->] | (_ & _ & ?)]; [destruct Hv as (_ & _ & ?); lia | lia]).
  pose proof (windowEnd_bounds in_ start Hv Hstart) as Hb.
  rewrite pageLoop_range; [reflexivity | | | lia].
  - unfold minInt32. lia.
  - destruct Hv as (_ & _ & ?). lia.
Qed.

End PaginationFacts.

Section PagingFacts.

Lemma validSizes_withToken in_ token :
  validSizes in_ -> validSizes (withToken in_ token).
Proof. intros H. exact H. Qed.

(** Paging from a valid token on reaches the end of the listing, page
    after page, when no window sum leaves the range of int32. *)
Lemma paginateAll_from in_ :
  validSizes in_ ->
  MaxResponse in_ + effectiveSize in_ <= maxInt32 + 1 ->
  forall fuel start token,
    tokenStart (withToken in_ token) start ->
    start < MaxResponse in_ ->
    MaxResponse in_ - start <= Z.of_nat fuel ->
    exists pages,
      paginateAll fuel in_ token = (pages, Exhausted) /\
      concat pages = rangeZ start (MaxResponse in_) /\
      Forall (fun page => page <> []) pages.
Proof.
  intros Hv Hsum fuel.
  induction fuel as [|fuel IH]; intros start token Htok Hlt Hfuel; [lia |].
  assert (Hstart : 0 <= start <= MaxResponse in_).
  { destruct Htok as [[_ ->] | (_ & _ & ?)]; [destruct Hv as (_ & _ & ?); lia | exact H]. }
  cbn [paginateAll].
  rewrite (Pagination_no_overflow (withToken in_ token) start
             (validSizes_withToken in_ token Hv) Htok)
    by (change (effectiveSize (withToken in_ token)) with (effectiveSize in_); lia).
  cbn [NextPageToken PaginationResponse_Responses].
  change (windowEnd (withToken in_ token) start) with (windowEnd in_ start).
  change (windowToken (withToken in_ token) start) with (windowToken in_ start).
  pose proof (windowEnd_bounds in_ start Hv Hstart) as Hb.
  unfold windowToken.
  destruct (Z.ltb_spec (windowEnd in_ start) (MaxResponse in_)) as [Hmore | Hdone].
  - assert (Hne : String.eqb (strconv.Itoa (windowEnd in_ start)) EmptyString = false)
      by (apply String.eqb_neq, Itoa_nonempty).
    rewrite Hne.
    assert (Hadv : start < windowEnd in_ start).
    { revert Hmore. unfold windowEnd, effectiveSize.
      destruct Hv as (Hp & Ho & Hm).
      destruct (Z.gtb_spec (PageSizeOverride in_) 0);
        match goal with |- context [if ?a =? 0 then _ else _] =>
          destruct (Z.eqb_spec a 0) end; lia. }
    destruct (IH (windowEnd in_ start) (strconv.Itoa (windowEnd in_ start)))
      as (pages & Hrun & Hcat & Hall).
    + right. cbn [PageToken MaxResponse withToken].
      split; [apply Itoa_nonempty |]. split; [| lia].
      apply Atoi_Itoa. destruct Hv as (_ & _ & Hm).
      unfold isInt64, minInt64, maxInt64. unfold maxInt32 in Hm. lia.
    + exact Hmore.
    + lia.
    + rewrite Hrun. eexists. split; [reflexivity |]. split.
      * cbn [concat]. rewrite Hcat. symmetry. apply rangeZ_split. lia.
      * constructor; [| exact Hall].
        rewrite rangeZ_first by lia. discriminate.
  - cbn [String.eqb]. eexists. split; [reflexivity |]. split.
    + cbn [concat]. rewrite app_nil_r. f_equal. lia.
    + constructor; [| constructor].
      rewrite rangeZ_first by lia. discriminate.
Qed.

End PagingFacts.

(* ===================================================================== *)
(** * The retry sequencer *)
(* ===================================================================== *)

Section RetryFacts.

Lemma retryIdAt_nonempty now : String.eqb (retryIdAt now) EmptyString = false.
Proof. reflexivity. Qed.

Lemma append_inj_r (p a b : string) : p +:+ a = p +:+ b -> a = b.
Proof.
  induction p as [|c p IH]; simpl; intros E; [exact E |].
  apply IH. injection E as E. exact E.
Qed.

Lemma retryIdAt_inj now1 now2 : retryIdAt now1 = retryIdAt now2 -> now1 = now2.
Proof.
  unfold retryIdAt. intros E. apply Itoa_inj.
  apply append_inj_r in E. exact E.
Qed.

Lemma SetupRetry_stores s now in_ :
  SetupRetryRequest_Responses in_ <> [] ->
  SetupRetry s now in_
  = ({| retryStore :=
          <[retryIdAt now := SetupRetryRequest_Responses in_]> (retryStore s) |},
     Returned (Some {| Id := retryIdAt now |}) None).
Proof.
  intros Hne. unfold SetupRetry.
  destruct (SetupRetryRequest_Responses in_); [congruence | reflexivity].
Qed.

Lemma Retry_absent s id :
  String.eqb id EmptyString = false ->
  retryStore s !! id = None ->
  Retry s {| Id := id |} = (s, retryNotFound id).
Proof.
  intros Hid Hno. unfold Retry. cbn [Id]. rewrite Hid, Hno. reflexivity.
Qed.

Lemma Retry_ok s id resp resps :
  String.eqb id EmptyString = false ->
  retryStore s !! id = Some (resp :: resps) ->
  Code resp = codes.OK ->
  Retry s {| Id := id |}
  = ({| retryStore := delete id (retryStore s) |}, retrySuccess).
Proof.
  intros Hid Hq Hok. unfold Retry. cbn [Id status.CodeOf].
  rewrite Hid, Hq, Hok. reflexivity.
Qed.

Lemma Retry_failure s id resp resps :
  String.eqb id EmptyString = false ->
  retryStore s !! id = Some (resp :: resps) ->
  notOK resp ->
  Retry s {| Id := id |}
  = ({| retryStore :=
          match resps with
          | [] => delete id (retryStore s)
          | _ :: _ => <[id := resps]> (retryStore s)
          end |},
     retryFailure resp).
Proof.
  intros Hid Hq Hno. unfold Retry. cbn [Id status.CodeOf status.ErrorProto].
  rewrite Hid, Hq. apply Z.eqb_neq in Hno. rewrite Hno.
  destruct resps; reflexivity.
Qed.

Lemma retryTimes_app n m s id :
  retryTimes (n + m) s id
  = let '(s1, outs1) := retryTimes n s id in
    let '(s2, outs2) := retryTimes m s1 id in
    (s2, outs1 ++ outs2).
Proof.
  revert s. induction n as [|n IH]; intros s.
  - cbn. destruct (retryTimes m s id). reflexivity.
  - cbn [Nat.add retryTimes]. destruct (Retry s {| Id := id |}) as [s1 out].
    rewrite IH. destruct (retryTimes n s1 id) as [s2 outs].
    destruct (retryTimes m s2 id). reflexivity.
Qed.

(** A run of outcomes that are not OK at the head of a queue is handed
    out one outcome per call, in order; afterwards the id holds the rest
    of the queue, or is gone when nothing is left. *)
Lemma retryTimes_failures errs :
  forall s id rest,
    String.eqb id EmptyString = false ->
    Forall notOK errs ->
    retryStore s !! id = Some (errs ++ rest) ->
    errs ++ rest <> [] ->
    snd (retryTimes (length errs) s id) = map retryFailure errs /\
    retryStore (fst (retryTimes (length errs) s id)) !! id
    = match rest with [] => None | _ :: _ => Some rest end.
Proof.
  induction errs as [|e errs IH]; intros s id rest Hid Hall Hq Hne.
  - cbn in *. split; [reflexivity |]. rewrite Hq.
    destruct rest; [congruence | reflexivity].
  - apply Forall_cons in Hall as [He Hall].
    cbn [length retryTimes]. cbn [app] in Hq.
    rewrite (Retry_failure s id e (errs ++ rest) Hid Hq He).
    destruct (errs ++ rest) as [|x q] eqn:Eq.
    + apply app_eq_nil in Eq as [-> ->]. cbn.
      split; [reflexivity |]. apply lookup_delete_eq.
    + set (s1 := {| retryStore := <[id := x :: q]> (retryStore s) |}).
      destruct (IH s1 id rest Hid Hall) as [Houts Hleft].
      * subst s1. cbn [retryStore]. rewrite lookup_insert_eq. congruence.
      * rewrite Eq. discriminate.
      * destruct (retryTimes (length errs) s1 id) as [s2 outs].
        cbn [fst snd map] in *. split; [congruence | exact Hleft].
Qed.

Lemma queuesNonEmpty_new : queuesNonEmpty NewShowcaseServer.
Proof. intros id q H. cbn in H. rewrite lookup_empty in H. discriminate. Qed.

Lemma queuesNonEmpty_SetupRetry s now in_ :
  queuesNonEmpty s -> queuesNonEmpty (fst (SetupRetry s now in_)).
Proof.
  intros Hinv id q. unfold SetupRetry.
  destruct (SetupRetryRequest_Responses in_) as [|r rs] eqn:E; cbn.
  - apply Hinv.
  - rewrite lookup_insert. case_decide.
    + intros [= <-]. discriminate.
    + apply Hinv.
Qed.

Lemma queuesNonEmpty_Retry s in_ :
  queuesNonEmpty s -> queuesNonEmpty (fst (Retry s in_)).
Proof.
  intros Hinv id q. unfold Retry.
  destruct (String.eqb (Id in_) EmptyString); [apply Hinv |].
  destruct (retryStore s !! Id in_) as [[|resp resps]|] eqn:Hq; [apply Hinv | | apply Hinv].
  destruct (status.CodeOf (Some resp) =? codes.OK); cbn [fst retryStore].
  - rewrite lookup_delete. case_decide; [discriminate | apply Hinv].
  - destruct resps as [|x resps]; cbn [length Nat.eqb].
    + rewrite lookup_delete. case_decide; [discriminate | apply Hinv].
    + rewrite lookup_insert. case_decide.
      * intros [= <-]. discriminate.
      * apply Hinv.
Qed.

Lemma queuesNonEmpty_runCalls calls :
  forall s, queuesNonEmpty s -> queuesNonEmpty (runCalls s calls).
Proof.
  induction calls as [|c calls IH]; intros s Hinv; [exact Hinv |].
  cbn [runCalls fold_left]. apply IH. destruct c; cbn [step].
  - apply queuesNonEmpty_SetupRetry, Hinv.
  - apply queuesNonEmpty_Retry, Hinv.
Qed.

End RetryFacts.

(* ===================================================================== *)
(** * The streaming handlers and Timeout *)
(* ===================================================================== *)

Section StreamFacts.

Lemma nonEmptyContents_cons req msgs :
  nonEmptyContents (req :: msgs)
  = (if String.eqb (EchoRequest_Content req) EmptyString then []
     else [EchoRequest_Content req]) ++ nonEmptyContents msgs.
Proof.
  unfold nonEmptyContents. cbn [map]. rewrite filter_cons.
  destruct (String.eqb_spec (EchoRequest_Content req) EmptyString) as [E | N];
    case_decide; try contradiction; reflexivity.
Qed.

Lemma collectLoop_clean msgs :
  forall closeFault received resp,
    Forall carriesNoError msgs ->
    collectLoop msgs EOF closeFault received resp
    = {| recvCalls := S (received + length msgs);
         sentAndClosed :=
           Some {| EchoResponse_Content :=
                     strings.Join (resp ++ nonEmptyContents msgs) " " |};
         returned := closeFault |}.
Proof.
  induction msgs as [|req msgs IH]; intros closeFault received resp Hall.
  - cbn. rewrite app_nil_r, Nat.add_0_r. reflexivity.
  - apply Forall_cons in Hall as [Hreq Hall]. cbn [collectLoop].
    unfold carriesNoError in Hreq. rewrite Hreq.
    rewrite IH by assumption. rewrite nonEmptyContents_cons.
    cbn [length]. rewrite Nat.add_succ_r.
    destruct (String.eqb (EchoRequest_Content req) EmptyString);
      cbn [app]; rewrite <- ?app_assoc; reflexivity.
Qed.

Lemma collectLoop_abort before :
  forall req after closing closeFault received resp err,
    Forall carriesNoError before ->
    status.ErrorProto (EchoRequest_Error req) = Some err ->
    collectLoop (before ++ req :: after) closing closeFault received resp
    = {| recvCalls := S (received + length before);
         sentAndClosed := None;
         returned := Some err |}.
Proof.
  induction before as [|m before IH];
    intros req after closing closeFault received resp err Hall Herr.
  - cbn [app collectLoop length]. rewrite Herr, Nat.add_0_r. reflexivity.
  - apply Forall_cons in Hall as [Hm Hall]. cbn [app collectLoop].
    unfold carriesNoError in Hm. rewrite Hm.
    rewrite (IH req after closing closeFault _ _ err Hall Herr).
    cbn [length]. rewrite Nat.add_succ_r. reflexivity.
Qed.

Lemma expandLoop_accepting words :
  forall stream,
    accepting stream ->
    expandLoop words stream
    = ({| sent := sent stream ++ map mkEchoResponse words;
          sendFault := sendFault stream |}, None).
Proof.
  induction words as [|word words IH]; intros stream Hacc.
  - cbn. rewrite app_nil_r. destruct stream; reflexivity.
  - cbn [expandLoop]. unfold Send. rewrite Hacc.
    rewrite IH by exact Hacc. cbn [sent sendFault map].
    rewrite <- app_assoc. reflexivity.
Qed.

(** When the transport refuses a message, the loop stops there: the
    words before it were sent, and the error of the transport is the
    result. *)
Lemma expandLoop_refused before :
  forall word after stream err,
    (forall k, (k < length before)%nat ->
               sendFault stream (length (sent stream) + k) = None) ->
    sendFault stream (length (sent stream) + length before) = Some err ->
    expandLoop (before ++ word :: after) stream
    = ({| sent := sent stream ++ map mkEchoResponse before;
          sendFault := sendFault stream |}, Some err).
Proof.
  induction before as [|w before IH]; intros word after stream err Hok Hbad.
  - cbn [app expandLoop length map] in *. unfold Send.
    rewrite Nat.add_0_r in Hbad. rewrite Hbad, app_nil_r.
    destruct stream; reflexivity.
  - cbn [app expandLoop]. unfold Send.
    pose proof (Hok 0%nat ltac:(cbn; lia)) as H0.
    rewrite Nat.add_0_r in H0. rewrite H0.
    rewrite (IH word after _ err); cbn [sent sendFault length map].
    + rewrite <- app_assoc. reflexivity.
    + intros k Hk. rewrite length_app. cbn [length].
      replace (length (sent stream) + 1 + k)%nat
        with (length (sent stream) + S k)%nat by lia.
      apply Hok. cbn [length]. lia.
    + rewrite length_app. cbn [length] in *.
      replace (length (sent stream) + 1 + length before)%nat
        with (length (sent stream) + S (length before))%nat by lia.
      exact Hbad.
Qed.

(** [ptypes.Duration] returns the zero duration with every error. *)
Lemma Duration_error_zero p d err :
  ptypes.Duration p = (d, Some err) -> d = 0.
Proof.
  unfold ptypes.Duration.
  destruct (ptypes.validateDuration p); [congruence |].
  destruct p as [p|]; [| congruence].
  repeat match goal with
         | |- context [if ?b then _ else _] => destruct b
         end; congruence.
Qed.

End StreamFacts.

(* ===================================================================== *)
(** * The retry sequencer: claims *)
(* ===================================================================== *)

Section RetryClaims.

(** C1. A retry entry set up with outcomes that are not OK followed by
    an OK outcome answers one [Retry] call per queued outcome, in the
    order of the list: each call fails with the error of the outcome it
    popped, the call that pops the OK outcome succeeds, and the call
    after it fails with NOT_FOUND. For the list ERROR, ERROR, OK of the
    specification that is failure, failure, success, NOT_FOUND. Every
    call takes exactly one outcome off the queue: after [k] calls the id
    holds the list without its first [k] outcomes. A queue without an OK
    outcome hands out its errors in order and the next call fails with
    NOT_FOUND. *)
Theorem Retry_consumes_queue_in_order
    (s : ShowcaseServer) (now : Z) (errs : list Status) (okSt : Status)
    (rest : list Status) :
  Forall notOK errs ->
  Code okSt = codes.OK ->
  let id := retryIdAt now in
  let scripted := {| SetupRetryRequest_Responses := errs ++ okSt :: rest |} in
  let failing := {| SetupRetryRequest_Responses := errs |} in
  snd (SetupRetry s now scripted) = Returned (Some {| Id := id |}) None /\
  snd (retryTimes (length errs + 2) (fst (SetupRetry s now scripted)) id)
  = map retryFailure errs ++ [retrySuccess; retryNotFound id] /\
  (forall k, (k <= length errs)%nat ->
     retryStore (fst (retryTimes k (fst (SetupRetry s now scripted)) id)) !! id
     = Some (drop k errs ++ okSt :: rest)) /\
  (errs <> [] ->
   snd (retryTimes (length errs + 1) (fst (SetupRetry s now failing)) id)
   = map retryFailure errs ++ [retryNotFound id]).
Proof.
  intros Hall Hok id scripted failing.
  pose proof (retryIdAt_nonempty now) as Hid. fold id in Hid.
  assert (Hne : errs ++ okSt :: rest <> []) by (destruct errs; discriminate).
  split; [| split; [| split]].
  - unfold scripted. rewrite SetupRetry_stores by exact Hne. reflexivity.
  - unfold scripted. rewrite SetupRetry_stores by exact Hne.
    cbn [fst SetupRetryRequest_Responses]. fold id.
    set (s0 := {| retryStore := <[id := errs ++ okSt :: rest]> (retryStore s) |}).
    destruct (retryTimes_failures errs s0 id (okSt :: rest) Hid Hall)
      as [Houts Hleft]; [apply lookup_insert_eq | exact Hne |].
    rewrite retryTimes_app.
    destruct (retryTimes (length errs) s0 id) as [s1 outs].
    cbn [fst snd] in Houts, Hleft. subst outs.
    cbn [retryTimes].
    rewrite (Retry_ok s1 id okSt rest Hid Hleft Hok).
    rewrite Retry_absent by (exact Hid || apply lookup_delete_eq).
    reflexivity.
  - intros k Hk. unfold scripted. rewrite SetupRetry_stores by exact Hne.
    cbn [fst SetupRetryRequest_Responses]. fold id.
    set (s0 := {| retryStore := <[id := errs ++ okSt :: rest]> (retryStore s) |}).
    destruct (retryTimes_failures (take k errs) s0 id
                (drop k errs ++ okSt :: rest) Hid (Forall_take _ k errs Hall))
      as [_ Hleft].
    + rewrite app_assoc, take_drop. apply lookup_insert_eq.
    + rewrite app_assoc, take_drop. exact Hne.
    + rewrite length_take_le in Hleft by exact Hk. rewrite Hleft.
      destruct (drop k errs); reflexivity.
  - intros Hsome. unfold failing. rewrite SetupRetry_stores by exact Hsome.
    cbn [fst SetupRetryRequest_Responses]. fold id.
    set (s0 := {| retryStore := <[id := errs]> (retryStore s) |}).
    destruct (retryTimes_failures errs s0 id [] Hid Hall) as [Houts Hleft].
    + rewrite app_nil_r. apply lookup_insert_eq.
    + rewrite app_nil_r. exact Hsome.
    + rewrite retryTimes_app.
      destruct (retryTimes (length errs) s0 id) as [s1 outs].
      cbn [fst snd] in Houts, Hleft. subst outs.
      cbn [retryTimes]. rewrite (Retry_absent s1 id Hid Hleft). reflexivity.
Qed.

(** The specification's example: ERROR, ERROR, OK. *)
Lemma Retry_consumes_queue_in_order_witness :
  snd (retryTimes 4
         (fst (SetupRetry NewShowcaseServer 1540000000
                 {| SetupRetryRequest_Responses :=
                      [unavailable; deadlineExceeded; okStatus] |}))
         "retry-test-1540000000")
  = [retryFailure unavailable; retryFailure deadlineExceeded; retrySuccess;
     retryNotFound "retry-test-1540000000"].
Proof.
  assert (Herrs : Forall notOK [unavailable; deadlineExceeded])
    by (repeat constructor; discriminate).
  exact (proj1 (proj2 (Retry_consumes_queue_in_order NewShowcaseServer 1540000000
                         [unavailable; deadlineExceeded] okStatus []
                         Herrs eq_refl))).
Defined.

(** C5. After any sequence of [SetupRetry] and [Retry] calls on a new
    server, an id is in the retry table exactly when its queue holds an
    outcome not yet consumed: no stored queue is empty, so [Retry]
    never indexes an empty queue; [SetupRetry] stores nothing for an
    empty list; and [Retry] removes the entry of its id exactly when the
    outcome it pops is OK or is the last one, leaving the rest of the
    queue under the id otherwise. *)
Theorem retryStore_entry_iff_unconsumed (calls : list call) :
  let s := runCalls NewShowcaseServer calls in
  (forall id,
      is_Some (retryStore s !! id)
      <-> exists resp resps, retryStore s !! id = Some (resp :: resps)) /\
  (forall now in_,
      SetupRetryRequest_Responses in_ = [] -> fst (SetupRetry s now in_) = s) /\
  (forall in_, snd (Retry s in_) <> Panicked) /\
  (forall id resp resps,
      String.eqb id EmptyString = false ->
      retryStore s !! id = Some (resp :: resps) ->
      let s' := fst (Retry s {| Id := id |}) in
      (retryStore s' !! id = None <-> Code resp = codes.OK \/ resps = []) /\
      (retryStore s' !! id <> None -> retryStore s' !! id = Some resps)).
Proof.
  intros s.
  assert (Hinv : queuesNonEmpty s)
    by apply queuesNonEmpty_runCalls, queuesNonEmpty_new.
  split; [| split; [| split]].
  - intros id. split.
    + intros [q Hq]. specialize (Hinv id q Hq).
      destruct q as [|resp resps]; [congruence | eauto].
    + intros (resp & resps & Hq). rewrite Hq. eauto.
  - intros now in_ Hempty. unfold SetupRetry. rewrite Hempty. reflexivity.
  - intros in_. unfold Retry.
    destruct (String.eqb (Id in_) EmptyString); [discriminate |].
    destruct (retryStore s !! Id in_) as [[|resp resps]|] eqn:Hq;
      [| | discriminate].
    + exfalso. exact (Hinv _ _ Hq eq_refl).
    + destruct (status.CodeOf (Some resp) =? codes.OK); discriminate.
  - intros id resp resps Hid Hq s'. subst s'.
    destruct (Z.eq_dec (Code resp) codes.OK) as [Hok | Hno].
    + rewrite (Retry_ok s id resp resps Hid Hq Hok). cbn [fst retryStore].
      rewrite lookup_delete_eq. split; [tauto | congruence].
    + rewrite (Retry_failure s id resp resps Hid Hq Hno). cbn [fst retryStore].
      destruct resps as [|x resps].
      * rewrite lookup_delete_eq. split; [tauto | congruence].
      * rewrite lookup_insert_eq. split; [| reflexivity].
        split; [discriminate | intros [? | ?]; congruence].
Qed.

(** A script of calls and the table after it: the entry of the first
    second has one outcome left, the entry of the next second was
    removed by the call that popped its OK outcome. *)
Example runCalls_script :
  let calls :=
    [ CallSetupRetry 1540000000
        {| SetupRetryRequest_Responses := [unavailable; deadlineExceeded] |};
      CallSetupRetry 1540000001
        {| SetupRetryRequest_Responses := [okStatus; unavailable] |};
      CallRetry {| Id := "retry-test-1540000000" |};
      CallRetry {| Id := "retry-test-1540000001" |} ] in
  retryStore (runCalls NewShowcaseServer calls) !! "retry-test-1540000000"
  = Some [deadlineExceeded] /\
  retryStore (runCalls NewShowcaseServer calls) !! "retry-test-1540000001"
  = None.
Proof. cbv zeta. split; vm_compute; reflexivity. Qed.

(** C6, as the code has it. A successful [SetupRetry] call returns the
    id printed from the second its clock reads, and stores the list it
    was given under that id as it is, leaving the entries of all other
    ids alone. Calls made in different seconds get different ids; the
    id of a call made in the same second as an earlier one is the same,
    and its list takes the place of the earlier entry. *)
Theorem SetupRetry_id_of_second
    (s : ShowcaseServer) (now : Z) (in_ : SetupRetryRequest) :
  SetupRetryRequest_Responses in_ <> [] ->
  let s' := fst (SetupRetry s now in_) in
  snd (SetupRetry s now in_) = Returned (Some {| Id := retryIdAt now |}) None /\
  retryStore s' !! retryIdAt now = Some (SetupRetryRequest_Responses in_) /\
  (forall id, id <> retryIdAt now -> retryStore s' !! id = retryStore s !! id) /\
  (forall now', now' <> now -> retryIdAt now' <> retryIdAt now).
Proof.
  intros Hne s'. subst s'. rewrite SetupRetry_stores by exact Hne.
  cbn [fst snd retryStore]. split; [reflexivity |]. split; [| split].
  - apply lookup_insert_eq.
  - intros id Hid. apply lookup_insert_ne. congruence.
  - intros now' Hdiff E. apply Hdiff, retryIdAt_inj, E.
Qed.

Lemma SetupRetry_id_of_second_witness :
  retryStore
    (fst (SetupRetry NewShowcaseServer 1540000000
            {| SetupRetryRequest_Responses := [unavailable; okStatus] |}))
    !! retryIdAt 1540000000
  = Some [unavailable; okStatus].
Proof.
  exact (proj1 (proj2 (SetupRetry_id_of_second NewShowcaseServer 1540000000
                         {| SetupRetryRequest_Responses := [unavailable; okStatus] |}
                         ltac:(discriminate)))).
Defined.

(** C6 as stated fails: two calls in the same second succeed with the
    same id, and the list of the second call takes the place of the
    queue of the first, which no [Retry] call had touched. *)
Lemma SetupRetry_same_second_replaces :
  let first := {| SetupRetryRequest_Responses := [unavailable; okStatus] |} in
  let second := {| SetupRetryRequest_Responses := [deadlineExceeded] |} in
  let s1 := fst (SetupRetry NewShowcaseServer 1540000000 first) in
  let s2 := fst (SetupRetry s1 1540000000 second) in
  snd (SetupRetry NewShowcaseServer 1540000000 first)
  = Returned (Some {| Id := "retry-test-1540000000" |}) None /\
  snd (SetupRetry s1 1540000000 second)
  = Returned (Some {| Id := "retry-test-1540000000" |}) None /\
  retryStore s1 !! "retry-test-1540000000" = Some [unavailable; okStatus] /\
  retryStore s2 !! "retry-test-1540000000" = Some [deadlineExceeded].
Proof.
  cbv zeta. repeat split; vm_compute; reflexivity.
Qed.

End RetryClaims.

(* ===================================================================== *)
(** * The streaming handlers and Timeout: claims *)
(* ===================================================================== *)

Section StreamClaims.

(** C7. When the client sends messages none of which carries an error
    (no descriptor, or one whose code is OK) and then closes its side,
    [Collect] receives them all and hands one response to
    [SendAndClose]: the contents that are not empty, in the order of
    arrival, joined by single spaces. What the call returns is what
    [SendAndClose] returned. *)
Theorem Collect_joins_contents
    (msgs : list EchoRequest) (fault : option error) :
  Forall carriesNoError msgs ->
  Collect {| inbound := msgs; closing := EOF; closeFault := fault |}
  = {| recvCalls := S (length msgs);
       sentAndClosed :=
         Some {| EchoResponse_Content :=
                   strings.Join (nonEmptyContents msgs) " " |};
       returned := fault |}.
Proof.
  intros Hall. unfold Collect. cbn [inbound closing closeFault].
  rewrite collectLoop_clean by exact Hall. reflexivity.
Qed.

(** The specification's example: the contents a, b, empty, c. *)
Lemma Collect_joins_contents_witness :
  Collect {| inbound := [say "a"; say "b"; say EmptyString; say "c"];
             closing := EOF; closeFault := None |}
  = {| recvCalls := 5;
       sentAndClosed := Some {| EchoResponse_Content := "a b c" |};
       returned := None |}.
Proof.
  assert (Hall : Forall carriesNoError [say "a"; say "b"; say EmptyString; say "c"])
    by (repeat constructor).
  exact (Collect_joins_contents _ None Hall).
Defined.

(** C8. When a message carries an error descriptor whose code is not
    OK, and the messages before it carried none, [Collect] returns that
    error as soon as it has received the message: it makes no further
    [Recv] call, never calls [SendAndClose], and the contents read so
    far are in no result. *)
Theorem Collect_aborts_on_error
    (before after : list EchoRequest) (req : EchoRequest) (st : Status)
    (ending : error) (fault : option error) :
  Forall carriesNoError before ->
  EchoRequest_Error req = Some st ->
  notOK st ->
  Collect {| inbound := before ++ req :: after;
             closing := ending; closeFault := fault |}
  = {| recvCalls := S (length before);
       sentAndClosed := None;
       returned := Some (StatusError st) |}.
Proof.
  intros Hall Herr Hno. unfold Collect. cbn [inbound closing closeFault].
  apply collectLoop_abort; [exact Hall |].
  rewrite Herr. cbn [status.ErrorProto].
  apply Z.eqb_neq in Hno. rewrite Hno. reflexivity.
Qed.

(** The specification's example: a, then a message with an error. *)
Lemma Collect_aborts_on_error_witness :
  Collect {| inbound := [say "a"; fail unavailable; say "b"];
             closing := EOF; closeFault := None |}
  = {| recvCalls := 2;
       sentAndClosed := None;
       returned := Some (StatusError unavailable) |}.
Proof.
  assert (Hall : Forall carriesNoError [say "a"]) by (repeat constructor).
  assert (Hno : notOK unavailable) by discriminate.
  exact (Collect_aborts_on_error [say "a"] [say "b"] (fail unavailable)
           unavailable EOF None Hall eq_refl Hno).
Defined.

(** C9, as the code has it. On a transport that accepts every message,
    [Expand] sends one response per word of the content, the words being
    the fields between white space, in the order they stand in the
    content; then it returns. A request without an error descriptor
    returns nil; one with a descriptor whose code is not OK returns that
    error, after all the words were sent; a descriptor whose code is OK
    makes no error, as everywhere in package status. *)
Theorem Expand_sends_words_then_error
    (in_ : ExpandRequest) (stream : ExpandServer) :
  accepting stream ->
  sent (fst (Expand in_ stream))
  = sent stream
    ++ map mkEchoResponse (strings.Fields (ExpandRequest_Content in_)) /\
  (ExpandRequest_Error in_ = None -> snd (Expand in_ stream) = None) /\
  (forall st, ExpandRequest_Error in_ = Some st -> notOK st ->
              snd (Expand in_ stream) = Some (StatusError st)) /\
  (forall st, ExpandRequest_Error in_ = Some st -> Code st = codes.OK ->
              snd (Expand in_ stream) = None).
Proof.
  intros Hacc. unfold Expand. rewrite expandLoop_accepting by exact Hacc.
  split; [| split; [| split]].
  - destruct (ExpandRequest_Error in_); reflexivity.
  - intros ->. reflexivity.
  - intros st -> Hno. cbn [snd status.ErrorProto].
    apply Z.eqb_neq in Hno. rewrite Hno. reflexivity.
  - intros st -> Hok. cbn [snd status.ErrorProto]. rewrite Hok. reflexivity.
Qed.

(** The specification's example: hello world, here with an error. *)
Lemma Expand_sends_words_then_error_witness :
  sent (fst (Expand {| ExpandRequest_Content := "hello world";
                       ExpandRequest_Error := Some unavailable |}
               freshStream))
  = [ {| EchoResponse_Content := "hello" |};
      {| EchoResponse_Content := "world" |} ] /\
  snd (Expand {| ExpandRequest_Content := "hello world";
                 ExpandRequest_Error := Some unavailable |}
         freshStream)
  = Some (StatusError unavailable).
Proof.
  assert (Hacc : accepting freshStream) by (intros k; reflexivity).
  assert (Hno : notOK unavailable) by discriminate.
  pose proof (Expand_sends_words_then_error
                {| ExpandRequest_Content := "hello world";
                   ExpandRequest_Error := Some unavailable |}
                freshStream Hacc) as (Hsent & _ & Herr & _).
  split; [exact Hsent | exact (Herr unavailable eq_refl Hno)].
Defined.

(** C9 as stated fails in two ways. A request whose error descriptor
    has the code OK does not end with that descriptor as its error: the
    call returns nil, as for a request without a descriptor. And when the
    transport refuses a message the handler returns at once with the
    error of the transport: of the two words only the first was sent. *)
Lemma Expand_not_always_words_then_error :
  snd (Expand {| ExpandRequest_Content := "hello world";
                 ExpandRequest_Error :=
                   Some {| Code := codes.OK; Message := "ignored"; Details := [] |} |}
         freshStream)
  = None /\
  sent (fst (Expand {| ExpandRequest_Content := "hello world";
                       ExpandRequest_Error := None |}
               brokenAfterOne))
  = [ {| EchoResponse_Content := "hello" |} ] /\
  snd (Expand {| ExpandRequest_Content := "hello world";
                 ExpandRequest_Error := None |}
         brokenAfterOne)
  = Some (TransportError "broken pipe").
Proof. repeat split; vm_compute; reflexivity. Qed.

(** C10. [Timeout] never fails because of the delay: when
    [ptypes.Duration] reports an error for the delay of the request (it
    is absent or malformed), the handler drops the error, sleeps for
    the zero duration, and returns what it returns for the same request
    with a zero delay: the error of the request, or its success
    payload. *)
Theorem Timeout_ignores_bad_delay (in_ : TimeoutRequest) :
  snd (ptypes.Duration (ResponseDelay in_)) <> None ->
  slept (Timeout in_) = 0 /\
  Timeout in_
  = Timeout {| ResponseDelay := Some {| durpb.Seconds := 0; durpb.Nanos := 0 |};
               TimeoutRequest_Error := TimeoutRequest_Error in_;
               Success := Success in_ |} /\
  timeoutReturned (Timeout in_)
  = match TimeoutRequest_Error in_ with
    | Some st => Returned None (status.ErrorProto (Some st))
    | None => Returned (Success in_) None
    end.
Proof.
  intros Hbad. unfold Timeout.
  destruct (ptypes.Duration (ResponseDelay in_)) as [d [err|]] eqn:E;
    [| contradiction].
  apply Duration_error_zero in E. subst d.
  split; [reflexivity |]. split; reflexivity.
Qed.

(** A delay whose seconds and nanoseconds differ in sign, before a
    success payload. *)
Lemma Timeout_ignores_bad_delay_witness :
  Timeout {| ResponseDelay := Some {| durpb.Seconds := 1; durpb.Nanos := -5 |};
             TimeoutRequest_Error := None;
             Success := Some {| TimeoutResponse_Content := "done" |} |}
  = {| slept := 0;
       timeoutReturned :=
         Returned (Some {| TimeoutResponse_Content := "done" |}) None |}.
Proof.
  pose proof (Timeout_ignores_bad_delay
                {| ResponseDelay := Some {| durpb.Seconds := 1; durpb.Nanos := -5 |};
                   TimeoutRequest_Error := None;
                   Success := Some {| TimeoutResponse_Content := "done" |} |}
                ltac:(vm_compute; discriminate)) as (_ & H & _).
  exact H.
Defined.

End StreamClaims.

(* ===================================================================== *)
(** * Pagination: claims *)
(* ===================================================================== *)

Section PaginationClaims.

(** C2 at an input where the code leaves the window of the claim. The
    sum of the start and the page size is computed in int32 and wraps
    around: for [lastPageRequest] the claim gives the 647 items from
    2147483000 on and the empty token; the handler computes the end
    -2147483296, below the start, returns no item, and hands out that
    end as the next page token. *)
Theorem Pagination_window_wraps :
  paginationWindow lastPageRequest
  = inr (2147483000, -2147483296, "-2147483296") /\
  Pagination lastPageRequest
  = Returned
      (Some {| PaginationResponse_Responses := [];
               NextPageToken := "-2147483296" |})
      None /\
  windowEnd lastPageRequest 2147483000 = 2147483647 /\
  windowToken lastPageRequest 2147483000 = EmptyString.
Proof. repeat split; vm_compute; reflexivity. Qed.

(** C3 at an input where the code accepts a token out of range. The
    token is converted to int32 before it is compared: 4294967301 is
    greater than the maximum 10, and the handler reads it as 5 and
    returns the page that starts there. *)
Theorem Pagination_accepts_wrapped_token :
  strconv.Atoi (PageToken hugeTokenRequest) = Some 4294967301 /\
  Pagination hugeTokenRequest
  = Returned
      (Some {| PaginationResponse_Responses := [5; 6; 7];
               NextPageToken := "8" |})
      None.
Proof. split; vm_compute; reflexivity. Qed.

(** C4 at an input where paging does not cover the listing. The first
    page of [twoPagesRequest] holds the items below 2^30; the window of
    the second wraps around, so the second page is empty and its token
    is negative; the third call refuses that token. The items from 2^30
    on are in no page. *)
Theorem paginateAll_stops_short (n : nat) :
  paginateAll (3 + n) twoPagesRequest EmptyString
  = ([rangeZ 0 1073741824; []],
     Failed (Some (invalidTokenError "-2147483648"))) /\
  1073741824 ∉ concat (fst (paginateAll (3 + n) twoPagesRequest EmptyString)).
Proof.
  assert (E1 : Pagination (withToken twoPagesRequest EmptyString)
               = Returned
                   (Some {| PaginationResponse_Responses := rangeZ 0 1073741824;
                            NextPageToken := "1073741824" |})
                   None).
  { rewrite (Pagination_no_overflow _ 0).
    - assert (windowEnd (withToken twoPagesRequest EmptyString) 0 = 1073741824)
        as -> by (vm_compute; reflexivity).
      assert (windowToken (withToken twoPagesRequest EmptyString) 0 = "1073741824")
        as -> by (vm_compute; reflexivity).
      reflexivity.
    - unfold validSizes, maxInt32. cbn. lia.
    - left. split; reflexivity.
    - vm_compute. discriminate. }
  assert (E2 : Pagination (withToken twoPagesRequest "1073741824")
               = Returned
                   (Some {| PaginationResponse_Responses := [];
                            NextPageToken := "-2147483648" |})
                   None) by (vm_compute; reflexivity).
  assert (E3 : Pagination (withToken twoPagesRequest "-2147483648")
               = Returned None (Some (invalidTokenError "-2147483648")))
    by (vm_compute; reflexivity).
  assert (E : paginateAll (3 + n) twoPagesRequest EmptyString
              = ([rangeZ 0 1073741824; []],
                 Failed (Some (invalidTokenError "-2147483648")))).
  { change (3 + n)%nat with (S (S (S n))).
    cbn [paginateAll]. rewrite E1. cbn [NextPageToken PaginationResponse_Responses].
    change (String.eqb "1073741824" EmptyString) with false. cbv iota.
    rewrite E2. cbn [NextPageToken PaginationResponse_Responses].
    change (String.eqb "-2147483648" EmptyString) with false. cbv iota.
    rewrite E3. reflexivity. }
  split; [exact E |].
  rewrite E. cbn [fst concat app]. rewrite app_nil_r.
  rewrite elem_of_rangeZ. lia.
Qed.

(** X1. On a request with valid sizes and a valid token, and as long as
    the sum of the start and the effective size is an int32, the
    handler returns the window of the specification: the integers from
    the start up to the end, the end being the start plus the effective
    size (the maximum for size 0) cut at the maximum, and the decimal
    string of the end as the next token unless the end is the maximum;
    the start is not above the end, nor the end above the maximum. *)
Theorem Pagination_window_within_int32
    (in_ : PaginationRequest) (start : Z) :
  validSizes in_ ->
  tokenStart in_ start ->
  start + effectiveSize in_ <= maxInt32 ->
  Pagination in_
  = Returned
      (Some {| PaginationResponse_Responses := rangeZ start (windowEnd in_ start);
               NextPageToken := windowToken in_ start |})
      None /\
  0 <= start <= windowEnd in_ start /\
  windowEnd in_ start <= MaxResponse in_.
Proof.
  intros Hv Htok Hsum. split; [apply Pagination_no_overflow; assumption |].
  assert (Hstart : 0 <= start <= MaxResponse in_).
  { destruct Htok as [[_ ->] | (_ & _ & ?)]; [| assumption].
    destruct Hv as (_ & _ & ?). lia. }
  pose proof (windowEnd_bounds in_ start Hv Hstart). lia.
Qed.

(** The specification's example: pages of 3 out of 10, from token 3. *)
Lemma Pagination_window_within_int32_witness :
  Pagination {| PageSize := 3; PageSizeOverride := 0;
                PageToken := "3"; MaxResponse := 10 |}
  = Returned
      (Some {| PaginationResponse_Responses := [3; 4; 5];
               NextPageToken := "6" |})
      None.
Proof.
  assert (Hv : validSizes {| PageSize := 3; PageSizeOverride := 0;
                             PageToken := "3"; MaxResponse := 10 |})
    by (unfold validSizes, maxInt32; cbn; lia).
  assert (Htok : tokenStart {| PageSize := 3; PageSizeOverride := 0;
                               PageToken := "3"; MaxResponse := 10 |} 3)
    by (right; cbn; repeat split; (discriminate || lia)).
  exact (proj1 (Pagination_window_within_int32 _ 3 Hv Htok
                  ltac:(vm_compute; discriminate))).
Defined.

(** X2. With valid sizes, a token that is not empty is refused with an
    INVALID_ARGUMENT error that quotes it when it does not parse as an
    integer, or when its value, converted to int32, is negative or
    above the maximum; otherwise that int32 is the start of the window.
    For a value within int32 the conversion changes nothing. *)
Theorem Pagination_checks_token (in_ : PaginationRequest) :
  validSizes in_ ->
  PageToken in_ <> EmptyString ->
  (strconv.Atoi (PageToken in_) = None ->
   Pagination in_ = Returned None (Some (invalidTokenError (PageToken in_)))) /\
  (forall t, strconv.Atoi (PageToken in_) = Some t ->
             int32 t < 0 \/ MaxResponse in_ < int32 t ->
             Pagination in_
             = Returned None (Some (invalidTokenError (PageToken in_)))) /\
  (forall t, strconv.Atoi (PageToken in_) = Some t ->
             0 <= int32 t <= MaxResponse in_ ->
             exists end_ next,
               paginationWindow in_ = inr (int32 t, end_, next)) /\
  (forall t, isInt32 t -> int32 t = t).
Proof.
  intros (Hp & Ho & Hm) Hne. apply String.eqb_neq in Hne.
  unfold Pagination, paginationWindow, invalidTokenError.
  pass_size_checks.
  cbv zeta. rewrite Hne.
  split; [| split; [| split]].
  - intros ->. reflexivity.
  - intros t -> Hout.
    destruct (Z.ltb_spec (int32 t) 0); [reflexivity |].
    destruct (Z.gtb_spec (int32 t) (MaxResponse in_)); [reflexivity | lia].
  - intros t -> Hin.
    destruct (Z.ltb_spec (int32 t) 0); [lia |].
    destruct (Z.gtb_spec (int32 t) (MaxResponse in_)); [lia |].
    cbn [orb]. eauto.
  - apply int32_small.
Qed.

(** The token 11 for a listing of ten items. *)
Lemma Pagination_checks_token_witness :
  Pagination {| PageSize := 3; PageSizeOverride := 0;
                PageToken := "11"; MaxResponse := 10 |}
  = Returned None (Some (invalidTokenError "11")).
Proof.
  assert (Hv : validSizes {| PageSize := 3; PageSizeOverride := 0;
                             PageToken := "11"; MaxResponse := 10 |})
    by (unfold validSizes, maxInt32; cbn; lia).
  pose proof (Pagination_checks_token _ Hv ltac:(discriminate)) as (_ & H & _).
  exact (H 11 eq_refl ltac:(right; vm_compute; reflexivity)).
Defined.

(** X3. With valid sizes, and as long as the maximum plus the effective
    size is at most 2^31, paging from the empty token on ends with the
    empty token, and the pages received are a partition of the integers
    from 0 up to the maximum: put end to end they are that sequence, so
    every integer of the range is in exactly one page, and no page is
    empty. *)
Theorem paginateAll_partitions (in_ : PaginationRequest) (fuel : nat) :
  validSizes in_ ->
  MaxResponse in_ + effectiveSize in_ <= maxInt32 + 1 ->
  MaxResponse in_ <= Z.of_nat fuel ->
  exists pages,
    paginateAll fuel in_ EmptyString = (pages, Exhausted) /\
    concat pages = rangeZ 0 (MaxResponse in_) /\
    NoDup (concat pages) /\
    (forall x, x ∈ concat pages <-> 0 <= x < MaxResponse in_) /\
    Forall (fun page => page <> []) pages.
Proof.
  intros Hv Hsum Hfuel.
  destruct (paginateAll_from in_ Hv Hsum fuel 0 EmptyString)
    as (pages & Hrun & Hcat & Hall).
  - left. split; reflexivity.
  - destruct Hv as (_ & _ & ?). lia.
  - lia.
  - exists pages. split; [exact Hrun |]. split; [exact Hcat |].
    rewrite Hcat. split; [apply NoDup_rangeZ |].
    split; [intros x; apply elem_of_rangeZ | exact Hall].
Qed.

(** The specification's example: ten items in pages of three. *)
Lemma paginateAll_partitions_witness :
  exists pages,
    paginateAll 10 {| PageSize := 3; PageSizeOverride := 0;
                      PageToken := EmptyString; MaxResponse := 10 |} EmptyString
    = (pages, Exhausted) /\
    concat pages = rangeZ 0 10 /\
    NoDup (concat pages) /\
    (forall x, x ∈ concat pages <-> 0 <= x < 10) /\
    Forall (fun page => page <> []) pages.
Proof.
  assert (Hv : validSizes {| PageSize := 3; PageSizeOverride := 0;
                             PageToken := EmptyString; MaxResponse := 10 |})
    by (unfold validSizes, maxInt32; cbn; lia).
  exact (paginateAll_partitions _ 10%nat Hv
           ltac:(vm_compute; discriminate) ltac:(vm_compute; discriminate)).
Defined.

Example paginateAll_ten_by_three :
  paginateAll 10 {| PageSize := 3; PageSizeOverride := 0;
                    PageToken := EmptyString; MaxResponse := 10 |} EmptyString
  = ([[0; 1; 2]; [3; 4; 5]; [6; 7; 8]; [9]], Exhausted).
Proof. vm_compute. reflexivity. Qed.

End PaginationClaims.

(* ===================================================================== *)
(** * Further properties of the handlers *)
(* ===================================================================== *)

Section FurtherProperties.

(** X4. When the transport refuses a message, [Expand] stops at that
    word: the words before it were sent, in order, none after it is,
    and the call returns the error of the transport, whatever error
    descriptor the request carries. *)
Theorem Expand_stops_when_refused
    (in_ : ExpandRequest) (stream : ExpandServer)
    (before after : list string) (word : string) (err : error) :
  strings.Fields (ExpandRequest_Content in_) = before ++ word :: after ->
  (forall k, (k < length before)%nat ->
             sendFault stream (length (sent stream) + k) = None) ->
  sendFault stream (length (sent stream) + length before) = Some err ->
  Expand in_ stream
  = ({| sent := sent stream ++ map mkEchoResponse before;
        sendFault := sendFault stream |}, Some err).
Proof.
  intros Hwords Hok Hbad. unfold Expand. rewrite Hwords.
  rewrite (expandLoop_refused before word after stream err Hok Hbad).
  reflexivity.
Qed.

Lemma Expand_stops_when_refused_witness :
  Expand {| ExpandRequest_Content := "hello world";
            ExpandRequest_Error := Some unavailable |}
    brokenAfterOne
  = ({| sent := [ {| EchoResponse_Content := "hello" |} ];
        sendFault := sendFault brokenAfterOne |},
     Some (TransportError "broken pipe")).
Proof.
  refine (Expand_stops_when_refused
            {| ExpandRequest_Content := "hello world";
               ExpandRequest_Error := Some unavailable |}
            brokenAfterOne ["hello"] [] "world" (TransportError "broken pipe")
            eq_refl _ eq_refl).
  intros k Hk. destruct k as [|k]; [reflexivity |]. cbn in Hk. lia.
Defined.

(** X5. [SetupRetry] refuses an empty list of outcomes, and [Retry] an
    empty id, with INVALID_ARGUMENT; neither touches the table. *)
Theorem retry_arguments_checked (s : ShowcaseServer) (now : Z) :
  SetupRetry s now {| SetupRetryRequest_Responses := [] |}
  = (s, Returned None
          (Some (status.Error codes.InvalidArgument
                   "A list of responses must be specified."))) /\
  Retry s {| Id := EmptyString |}
  = (s, Returned None
          (Some (status.Error codes.InvalidArgument "An Id must be specified."))).
Proof. split; reflexivity. Qed.

(** X6. [Pagination] refuses a negative page size or override, and a
    maximum that is not positive, with INVALID_ARGUMENT, whatever the
    token. *)
Theorem Pagination_checks_sizes (in_ : PaginationRequest) :
  (PageSize in_ < 0 \/ PageSizeOverride in_ < 0 ->
   Pagination in_
   = Returned None
       (Some (status.Error codes.InvalidArgument
                "The page size provided must not be negative."))) /\
  (0 <= PageSize in_ -> 0 <= PageSizeOverride in_ -> MaxResponse in_ <= 0 ->
   Pagination in_
   = Returned None
       (Some (status.Error codes.InvalidArgument
                "The maximum response provided must be positive."))).
Proof.
  unfold Pagination, paginationWindow. split.
  - intros Hneg.
    destruct (Z.ltb_spec (PageSize in_) 0); [reflexivity |].
    destruct (Z.ltb_spec (PageSizeOverride in_) 0); [reflexivity | lia].
  - intros Hp Ho Hm.
    destruct (Z.ltb_spec (PageSize in_) 0); [lia |].
    destruct (Z.ltb_spec (PageSizeOverride in_) 0); [lia |]. cbn [orb].
    destruct (Z.leb_spec (MaxResponse in_) 0); [reflexivity | lia].
Qed.

End FurtherProperties.

(* ===================================================================== *)
(** * The retry sequencer: frame, commutation and provenance *)
(* ===================================================================== *)

Section RetryAlgebra.

(** [Retry] as one update of the entry of its id. *)
Lemma Retry_partial_alter s in_ :
  Retry s in_
  = ({| retryStore :=
          partial_alter (nextQueue (Id in_)) (Id in_) (retryStore s) |},
     retryOutcome (Id in_) (retryStore s !! Id in_)).
Proof.
  destruct s as [m]. destruct in_ as [id].
  unfold Retry, nextQueue, retryOutcome. cbn [Id retryStore].
  destruct (String.eqb id EmptyString) eqn:E.
  - f_equal. f_equal. symmetry. apply partial_alter_id. reflexivity.
  - destruct (m !! id) as [[|resp resps]|] eqn:Hq.
    + f_equal. f_equal. symmetry. apply partial_alter_id. rewrite Hq. reflexivity.
    + cbn [status.CodeOf status.ErrorProto].
      destruct (Code resp =? codes.OK) eqn:Hc.
      * f_equal. f_equal. apply map_eq. intros k.
        rewrite lookup_partial_alter, lookup_delete.
        case_decide; [| reflexivity]. rewrite Hq, Hc.
        destruct resps; reflexivity.
      * f_equal. f_equal. apply map_eq. intros k.
        rewrite lookup_partial_alter.
        destruct resps as [|x resps]; cbn [length Nat.eqb].
        -- rewrite lookup_delete. case_decide; [| reflexivity].
           rewrite Hq. reflexivity.
        -- rewrite lookup_insert. case_decide; [| reflexivity].
           rewrite Hq, Hc. reflexivity.
    + f_equal. f_equal. symmetry. apply partial_alter_id. rewrite Hq. reflexivity.
Qed.

Lemma nextQueue_suffix id q q' :
  nextQueue id q = Some q' -> exists q0, q = Some q0 /\ q' `suffix_of` q0.
Proof.
  unfold nextQueue. destruct (String.eqb id EmptyString).
  - intros ->. eauto.
  - destruct q as [[|resp [|x resps]]|]; try discriminate.
    + intros [= <-]. eauto.
    + destruct (Code resp =? codes.OK); [discriminate |].
      intros [= <-]. eexists. split; [reflexivity |]. apply suffix_cons_r. reflexivity.
Qed.

Lemma Retry_lookup_suffix s in_ k q' :
  retryStore (fst (Retry s in_)) !! k = Some q' ->
  exists q, retryStore s !! k = Some q /\ q' `suffix_of` q.
Proof.
  rewrite Retry_partial_alter. cbn [fst retryStore].
  rewrite lookup_partial_alter. case_decide as Hk.
  - subst k. apply nextQueue_suffix.
  - intros ->. eauto.
Qed.

Lemma retryTimes_absent n :
  forall s id,
    String.eqb id EmptyString = false ->
    retryStore s !! id = None ->
    retryTimes n s id = (s, replicate n (retryNotFound id)).
Proof.
  induction n as [|n IH]; intros s id Hid Hno; [reflexivity |].
  cbn [retryTimes replicate]. rewrite (Retry_absent s id Hid Hno).
  rewrite (IH s id Hid Hno). reflexivity.
Qed.

Lemma retryTimes_drains q :
  forall s id,
    String.eqb id EmptyString = false ->
    retryStore s !! id = Some q -> q <> [] ->
    retryStore (fst (retryTimes (length q) s id)) !! id = None.
Proof.
  induction q as [|resp q IH]; intros s id Hid Hq Hne; [congruence |].
  cbn [length retryTimes].
  destruct (Z.eq_dec (Code resp) codes.OK) as [Hok | Hno].
  - rewrite (Retry_ok s id resp q Hid Hq Hok).
    rewrite retryTimes_absent by (exact Hid || apply lookup_delete_eq).
    apply lookup_delete_eq.
  - rewrite (Retry_failure s id resp q Hid Hq Hno).
    destruct q as [|x q].
    + cbn. apply lookup_delete_eq.
    + set (s1 := {| retryStore := <[id := x :: q]> (retryStore s) |}).
      specialize (IH s1 id Hid (lookup_insert_eq _ _ _) ltac:(discriminate)).
      destruct (retryTimes (length (x :: q)) s1 id) as [s2 outs].
      exact IH.
Qed.

Lemma fromScript_step calls s c :
  fromScript calls s -> fromScript (calls ++ [c]) (step s c).
Proof.
  intros Hinv id q Hq. destruct c as [now in_ | in_]; cbn [step] in Hq.
  - unfold SetupRetry in Hq.
    destruct (SetupRetryRequest_Responses in_) as [|r rs] eqn:E;
      cbn [length Nat.eqb fst retryStore] in Hq.
    + destruct (Hinv id q Hq) as (now' & in' & Hin & Hid & Hsuf).
      exists now', in'. rewrite elem_of_app. auto.
    + rewrite lookup_insert in Hq. case_decide as Hk.
      * injection Hq as <-. exists now, in_. rewrite elem_of_app, list_elem_of_singleton.
        rewrite E. auto.
      * destruct (Hinv id q Hq) as (now' & in' & Hin & Hid & Hsuf).
        exists now', in'. rewrite elem_of_app. auto.
  - apply Retry_lookup_suffix in Hq as (q0 & Hq0 & Hsuf0).
    destruct (Hinv id q0 Hq0) as (now' & in' & Hin & Hid & Hsuf).
    exists now', in'. rewrite elem_of_app. split; [auto |]. split; [exact Hid |].
    etrans; eassumption.
Qed.

Lemma runCalls_snoc s calls c :
  runCalls s (calls ++ [c]) = step (runCalls s calls) c.
Proof. unfold runCalls. rewrite fold_left_app. reflexivity. Qed.

Lemma fromScript_runCalls calls :
  fromScript calls (runCalls NewShowcaseServer calls).
Proof.
  induction calls as [|c calls IH] using rev_ind.
  - intros id q Hq. cbn in Hq. rewrite lookup_empty in Hq. discriminate.
  - rewrite runCalls_snoc. apply fromScript_step, IH.
Qed.

(** X7. A [Retry] call touches the entry of its id only, and can only
    shorten it: every other id keeps its queue, no id is added, and the
    queue an id has after the call is a suffix of the one it had. *)
Theorem Retry_touches_only_its_queue
    (s : ShowcaseServer) (in_ : RetryId) (k : string) :
  (k <> Id in_ ->
   retryStore (fst (Retry s in_)) !! k = retryStore s !! k) /\
  (forall q', retryStore (fst (Retry s in_)) !! k = Some q' ->
              exists q, retryStore s !! k = Some q /\ q' `suffix_of` q).
Proof.
  split.
  - intros Hk. rewrite Retry_partial_alter. cbn [fst retryStore].
    apply lookup_partial_alter_ne. congruence.
  - intros q'. apply Retry_lookup_suffix.
Qed.

(** X8. An entry with a queue of [n] outcomes is gone after [n] [Retry]
    calls on its id, whatever the outcomes are: sooner when an OK outcome
    is reached, and every later call fails with NOT_FOUND. *)
Theorem Retry_entry_gone_after_its_length
    (s : ShowcaseServer) (id : string) (q : list Status) (m : nat) :
  String.eqb id EmptyString = false ->
  retryStore s !! id = Some q ->
  q <> [] ->
  retryStore (fst (retryTimes (length q) s id)) !! id = None /\
  snd (retryTimes (length q + m) s id)
  = snd (retryTimes (length q) s id) ++ replicate m (retryNotFound id).
Proof.
  intros Hid Hq Hne.
  pose proof (retryTimes_drains q s id Hid Hq Hne) as Hgone.
  split; [exact Hgone |].
  rewrite retryTimes_app.
  destruct (retryTimes (length q) s id) as [s1 outs]. cbn [fst snd] in *.
  rewrite (retryTimes_absent m s1 id Hid Hgone). reflexivity.
Qed.

Lemma Retry_entry_gone_after_its_length_witness :
  snd (retryTimes (3 + 2)
         (fst (SetupRetry NewShowcaseServer 1540000000
                 {| SetupRetryRequest_Responses :=
                      [unavailable; okStatus; deadlineExceeded] |}))
         "retry-test-1540000000")
  = [retryFailure unavailable; retrySuccess;
     retryNotFound "retry-test-1540000000";
     retryNotFound "retry-test-1540000000";
     retryNotFound "retry-test-1540000000"].
Proof.
  pose proof (Retry_entry_gone_after_its_length
                (fst (SetupRetry NewShowcaseServer 1540000000
                        {| SetupRetryRequest_Responses :=
                             [unavailable; okStatus; deadlineExceeded] |}))
                "retry-test-1540000000"
                [unavailable; okStatus; deadlineExceeded] 2
                eq_refl ltac:(vm_compute; reflexivity) ltac:(discriminate))
    as [_ H].
  refine (eq_trans H _). vm_compute. reflexivity.
Defined.

(** X9. Calls on different ids commute: two [Retry] calls on different
    ids leave the same table in either order and each returns what it
    returns when made first; the same holds for a [SetupRetry] call and a
    [Retry] call on another id than the one it issues. *)
Theorem retry_calls_on_different_ids_commute
    (s : ShowcaseServer) (id1 id2 : string) (now : Z) (in_ : SetupRetryRequest) :
  id1 <> id2 ->
  id1 <> retryIdAt now ->
  (fst (Retry (fst (Retry s {| Id := id1 |})) {| Id := id2 |})
   = fst (Retry (fst (Retry s {| Id := id2 |})) {| Id := id1 |}) /\
   snd (Retry (fst (Retry s {| Id := id1 |})) {| Id := id2 |})
   = snd (Retry s {| Id := id2 |}) /\
   snd (Retry (fst (Retry s {| Id := id2 |})) {| Id := id1 |})
   = snd (Retry s {| Id := id1 |})) /\
  (fst (Retry (fst (SetupRetry s now in_)) {| Id := id1 |})
   = fst (SetupRetry (fst (Retry s {| Id := id1 |})) now in_) /\
   snd (Retry (fst (SetupRetry s now in_)) {| Id := id1 |})
   = snd (Retry s {| Id := id1 |}) /\
   snd (SetupRetry (fst (Retry s {| Id := id1 |})) now in_)
   = snd (SetupRetry s now in_)).
Proof.
  intros Hne Hfresh. split.
  - rewrite !Retry_partial_alter. cbn [fst snd retryStore Id].
    rewrite !lookup_partial_alter_ne by congruence.
    split; [| split; reflexivity].
    f_equal. apply partial_alter_partial_alter_ne. congruence.
  - rewrite !Retry_partial_alter. unfold SetupRetry.
    destruct (SetupRetryRequest_Responses in_) as [|r rs];
      cbn [length Nat.eqb fst snd retryStore Id].
    + split; [| split]; reflexivity.
    + rewrite lookup_insert_ne by congruence.
      split; [| split; reflexivity].
      f_equal. apply map_eq. intros k.
      rewrite lookup_partial_alter, !lookup_insert, lookup_partial_alter.
      repeat case_decide; subst; congruence.
Qed.

Lemma retry_calls_on_different_ids_commute_witness :
  snd (Retry (fst (Retry (runCalls NewShowcaseServer
                            [ CallSetupRetry 1 {| SetupRetryRequest_Responses := [unavailable] |};
                              CallSetupRetry 2 {| SetupRetryRequest_Responses := [okStatus] |} ])
                     {| Id := "retry-test-1" |}))
         {| Id := "retry-test-2" |})
  = retrySuccess.
Proof.
  pose proof (retry_calls_on_different_ids_commute
                (runCalls NewShowcaseServer
                   [ CallSetupRetry 1 {| SetupRetryRequest_Responses := [unavailable] |};
                     CallSetupRetry 2 {| SetupRetryRequest_Responses := [okStatus] |} ])
                "retry-test-1" "retry-test-2" 3
                {| SetupRetryRequest_Responses := [deadlineExceeded] |}
                ltac:(discriminate) ltac:(vm_compute; discriminate))
    as [(_ & H & _) _].
  refine (eq_trans H _). vm_compute. reflexivity.
Defined.

(** X10. After any script of calls on a new server, every queue in the
    retry table is what is left of a list that a [SetupRetry] call of the
    script supplied, under the id of the second of that call: the table
    holds nothing that was not set up, and no outcome out of order. *)
Theorem retryStore_holds_what_was_set_up
    (calls : list call) (id : string) (q : list Status) :
  retryStore (runCalls NewShowcaseServer calls) !! id = Some q ->
  exists now in_,
    CallSetupRetry now in_ ∈ calls /\ id = retryIdAt now /\
    q `suffix_of` SetupRetryRequest_Responses in_.
Proof. apply fromScript_runCalls. Qed.

Lemma retryStore_holds_what_was_set_up_witness :
  exists now in_,
    CallSetupRetry now in_
      ∈ [ CallSetupRetry 1540000000
            {| SetupRetryRequest_Responses := [unavailable; deadlineExceeded] |};
          CallRetry {| Id := "retry-test-1540000000" |} ] /\
    "retry-test-1540000000" = retryIdAt now /\
    [deadlineExceeded] `suffix_of` SetupRetryRequest_Responses in_.
Proof.
  exact (retryStore_holds_what_was_set_up
           [ CallSetupRetry 1540000000
               {| SetupRetryRequest_Responses := [unavailable; deadlineExceeded] |};
             CallRetry {| Id := "retry-test-1540000000" |} ]
           "retry-test-1540000000" [deadlineExceeded]
           ltac:(vm_compute; reflexivity)).
Defined.



End RetryAlgebra.

(* ===================================================================== *)
(** * Echo, Chat, Collect and the interceptor: further properties *)
(* ===================================================================== *)

Section StreamsMore.

Lemma chatLoop_clean msgs :
  forall closing out received,
    Forall carriesNoError msgs ->
    accepting out ->
    chatLoop msgs closing out received
    = {| chatRecvCalls := S (received + length msgs);
         chatSent :=
           {| sent := sent out
                      ++ map (fun m => mkEchoResponse (EchoRequest_Content m)) msgs;
              sendFault := sendFault out |};
         chatReturned := match closing with EOF => None | err => Some err end |}.
Proof.
  induction msgs as [|req msgs IH]; intros closing out received Hall Hacc.
  - cbn. rewrite app_nil_r, Nat.add_0_r. destruct out. destruct closing; reflexivity.
  - apply Forall_cons in Hall as [Hreq Hall]. cbn [chatLoop].
    unfold carriesNoError in Hreq. rewrite Hreq. unfold Send. rewrite Hacc.
    cbn [fst]. rewrite IH by assumption.
    cbn [sent sendFault length map]. rewrite <- app_assoc, Nat.add_succ_r.
    reflexivity.
Qed.


Lemma chatLoop_reads_like_collectLoop msgs :
  forall closing out received resp,
    chatRecvCalls (chatLoop msgs closing out received)
    = recvCalls (collectLoop msgs closing None received resp) /\
    chatReturned (chatLoop msgs closing out received)
    = returned (collectLoop msgs closing None received resp).
Proof.
  induction msgs as [|req msgs IH]; intros closing out received resp.
  - cbn. destruct closing; split; reflexivity.
  - cbn [chatLoop collectLoop].
    destruct (status.ErrorProto (EchoRequest_Error req)); [split; reflexivity |].
    apply IH.
Qed.

Lemma collectLoop_broken msgs :
  forall closing fault received resp,
    Forall carriesNoError msgs ->
    closing <> EOF ->
    collectLoop msgs closing fault received resp
    = {| recvCalls := S (received + length msgs);
         sentAndClosed := None;
         returned := Some closing |}.
Proof.
  induction msgs as [|req msgs IH]; intros closing fault received resp Hall Hne.
  - cbn. rewrite Nat.add_0_r. destruct closing; [congruence | reflexivity ..].
  - apply Forall_cons in Hall as [Hreq Hall]. cbn [collectLoop].
    unfold carriesNoError in Hreq. rewrite Hreq.
    rewrite IH by assumption. cbn [length]. rewrite Nat.add_succ_r. reflexivity.
Qed.

(** X12. On a transport that accepts every message, [Chat] answers each
    message that carries no error with its content, in the order of
    arrival and the empty ones too, until the client closes its side;
    then it returns nil, or the error of [Recv] when that is not the end
    of the input. *)
Theorem Chat_echoes_each_message
    (msgs : list EchoRequest) (ending : error) (out : ExpandServer) :
  Forall carriesNoError msgs ->
  accepting out ->
  Chat {| chatInbound := msgs; chatClosing := ending; chatOut := out |}
  = {| chatRecvCalls := S (length msgs);
       chatSent :=
         {| sent := sent out
                    ++ map (fun m => mkEchoResponse (EchoRequest_Content m)) msgs;
            sendFault := sendFault out |};
       chatReturned := match ending with EOF => None | err => Some err end |}.
Proof.
  intros Hall Hacc. unfold Chat. cbn [chatInbound chatClosing chatOut].
  rewrite chatLoop_clean by assumption. reflexivity.
Qed.

Lemma Chat_echoes_each_message_witness :
  sent (chatSent (Chat {| chatInbound := [say "a"; say EmptyString; say "b"];
                          chatClosing := EOF; chatOut := freshStream |}))
  = [ {| EchoResponse_Content := "a" |};
      {| EchoResponse_Content := EmptyString |};
      {| EchoResponse_Content := "b" |} ].
Proof.
  assert (Hall : Forall carriesNoError [say "a"; say EmptyString; say "b"])
    by (repeat constructor).
  assert (Hacc : accepting freshStream) by (intros k; reflexivity).
  exact (f_equal (fun r => sent (chatSent r))
           (Chat_echoes_each_message _ EOF freshStream Hall Hacc)).
Defined.



(** X14. [Chat] reads its stream as [Collect] does, and never returns an
    error of [Send]: whatever the transport does with the echoes, the
    number of [Recv] calls and the error returned are those of [Collect]
    on the same messages (with a [SendAndClose] that succeeds). *)
Theorem Chat_reads_like_Collect
    (msgs : list EchoRequest) (ending : error) (out : ExpandServer) :
  chatRecvCalls (Chat {| chatInbound := msgs; chatClosing := ending; chatOut := out |})
  = recvCalls (Collect {| inbound := msgs; closing := ending; closeFault := None |}) /\
  chatReturned (Chat {| chatInbound := msgs; chatClosing := ending; chatOut := out |})
  = returned (Collect {| inbound := msgs; closing := ending; closeFault := None |}).
Proof. unfold Chat, Collect. apply chatLoop_reads_like_collectLoop. Qed.


(** X16. When [Recv] fails with an error other than the end of the
    input, after messages that carry no error, [Collect] returns that
    error and calls [SendAndClose] not at all: what it has accumulated is
    sent to nobody. *)
Theorem Collect_returns_transport_error
    (msgs : list EchoRequest) (ending : error) (fault : option error) :
  Forall carriesNoError msgs ->
  ending <> EOF ->
  Collect {| inbound := msgs; closing := ending; closeFault := fault |}
  = {| recvCalls := S (length msgs);
       sentAndClosed := None;
       returned := Some ending |}.
Proof.
  intros Hall Hne. unfold Collect. cbn [inbound closing closeFault].
  rewrite collectLoop_broken by assumption. reflexivity.
Qed.

Lemma Collect_returns_transport_error_witness :
  Collect {| inbound := [say "a"; say "b"];
             closing := TransportError "context canceled";
             closeFault := None |}
  = {| recvCalls := 3;
       sentAndClosed := None;
       returned := Some (TransportError "context canceled") |}.
Proof.
  assert (Hall : Forall carriesNoError [say "a"; say "b"]) by (repeat constructor).
  exact (Collect_returns_transport_error _ (TransportError "context canceled") None
           Hall ltac:(discriminate)).
Defined.

(** X17. The interceptor is transparent: a sequence of unary calls served
    through [logRequests] leaves the server in the same state and returns
    the same responses and errors as the handlers alone. The standard
    output only grows, by the writes counted by [writesOf] for each call:
    the response is written for the calls that returned a nil error and
    for no other. *)
Theorem logRequests_is_transparent
    {Req Resp St : Type} (showReq : Req -> string)
    (showResp : option Resp -> string)
    (dispatch : string -> St -> Req -> St * outcome Resp)
    (calls : list (string * Req)) (st : St) (stdout : list string) :
  let logged := serveAllLogged showReq showResp dispatch calls st stdout in
  let bare := serveAll dispatch calls st in
  fst (fst logged) = fst bare /\
  snd logged = snd bare /\
  stdout `prefix_of` snd (fst logged) /\
  length (snd (fst logged))
  = (length stdout + sum_list (map writesOf (snd bare)))%nat.
Proof.
  cbv zeta. revert st stdout.
  induction calls as [|[method req] calls IH]; intros st stdout.
  - cbn. repeat split; [reflexivity | lia].
  - cbn [serveAllLogged serveAll]. unfold logRequests.
    destruct (dispatch method st req) as [st' [resp err|]].
    + match goal with
      | |- context [serveAllLogged _ _ _ calls st' ?o] =>
          specialize (IH st' o); set (out' := o) in *
      end.
      destruct (serveAllLogged showReq showResp dispatch calls st' out')
        as [[st2 out2] outs2].
      destruct (serveAll dispatch calls st') as [st3 outs3].
      cbn [fst snd] in *. destruct IH as (-> & -> & Hpre & Hlen).
      repeat split.
      * etrans; [| exact Hpre]. subst out'.
        destruct err; rewrite <- ?app_assoc; apply prefix_app_r; reflexivity.
      * rewrite Hlen. subst out'. cbn [map sum_list sum_list_with].
        destruct err; rewrite !length_app; cbn [length];
          unfold writesOf, id; cbn [panicked succeeded]; lia.
    + cbn [fst snd map sum_list sum_list_with]. repeat split.
      * rewrite <- app_assoc. apply prefix_app_r. reflexivity.
      * rewrite !length_app. cbn. lia.
Qed.

End StreamsMore.

(* ===================================================================== *)
(** * Timeout: the delay slept *)
(* ===================================================================== *)

Section TimeoutMore.

Lemma int64_small z : isInt64 z -> int64 z = z.
Proof.
  unfold isInt64, minInt64, maxInt64, int64. intros H.
  apply wrap_small; simpl; lia.
Qed.

Lemma Duration_plain d :
  plainDelay d ->
  ptypes.Duration (Some d)
  = (durpb.Seconds d * time.Second + durpb.Nanos d, None).
Proof.
  unfold plainDelay. destruct d as [S N]. cbn [durpb.Seconds durpb.Nanos].
  intros (HS & HN & Hneg & Hpos). apply Z.abs_le in HS.
  unfold ptypes.Duration, ptypes.validateDuration, ptypes.minSeconds,
    ptypes.maxSeconds, time.Second, time.Nanosecond.
  cbn [durpb.Seconds durpb.Nanos].
  rewrite !Z.gtb_ltb, !Z.geb_leb.
  change (Z.opp 315576000000) with (-315576000000).
  destruct (Z.ltb_spec S (-315576000000)); [lia |].
  destruct (Z.ltb_spec 315576000000 S); [lia |].
  destruct (Z.leb_spec N (- 1000000000)); [lia |].
  destruct (Z.leb_spec 1000000000 N); [lia |]. cbn [orb].
  assert (Hsigns : (S <? 0) && (0 <? N) || (0 <? S) && (N <? 0) = false).
  { destruct (Z.ltb_spec S 0), (Z.ltb_spec 0 N), (Z.ltb_spec 0 S), (Z.ltb_spec N 0);
      cbn; lia. }
  rewrite Hsigns.
  rewrite (int64_small (S * 1000000000))
    by (unfold isInt64, minInt64, maxInt64; lia).
  rewrite Z.quot_mul by lia.
  rewrite (int64_small S) by (unfold isInt64, minInt64, maxInt64; lia).
  rewrite Z.eqb_refl. cbn [negb].
  rewrite Z.mul_1_r.
  rewrite (int64_small N) by (unfold isInt64, minInt64, maxInt64; lia).
  rewrite (int64_small (S * 1000000000 + N))
    by (unfold isInt64, minInt64, maxInt64; lia).
  destruct (Z.eqb_spec N 0) as [-> | HN0]; cbn [negb].
  - rewrite Z.add_0_r. reflexivity.
  - destruct (Z.ltb_spec (S * 1000000000 + N) 0), (Z.ltb_spec N 0);
      cbn [Bool.eqb negb]; (reflexivity || lia).
Qed.

(** X18. [Timeout] sleeps for exactly the delay of the request when that
    is a duration within about 292 years whose nanoseconds are below a
    second and of the sign of the seconds: the seconds times 10^9 plus
    the nanoseconds, as a count of nanoseconds. *)
Theorem Timeout_sleeps_for_the_delay (in_ : TimeoutRequest) (d : durpb.Duration) :
  ResponseDelay in_ = Some d ->
  plainDelay d ->
  slept (Timeout in_) = durpb.Seconds d * 1000000000 + durpb.Nanos d.
Proof.
  intros Hd Hplain. unfold Timeout. rewrite Hd, (Duration_plain d Hplain).
  reflexivity.
Qed.

Lemma Timeout_sleeps_for_the_delay_witness :
  slept (Timeout {| ResponseDelay := Some {| durpb.Seconds := 2; durpb.Nanos := 500000000 |};
                    TimeoutRequest_Error := None;
                    Success := None |})
  = 2500000000.
Proof.
  assert (Hplain : plainDelay {| durpb.Seconds := 2; durpb.Nanos := 500000000 |})
    by (unfold plainDelay; cbn; lia).
  exact (Timeout_sleeps_for_the_delay
           {| ResponseDelay := Some {| durpb.Seconds := 2; durpb.Nanos := 500000000 |};
              TimeoutRequest_Error := None; Success := None |}
           _ eq_refl Hplain).
Defined.

End TimeoutMore.

(* ===================================================================== *)
(** * Pagination: what every page satisfies *)
(* ===================================================================== *)

Section PaginationMore.

Lemma int32_le z : 0 <= z -> int32 z <= z.
Proof.
  intros Hz. unfold int32, wrap.
  change (2 ^ (32 - 1)) with 2147483648. change (2 ^ 32) with 4294967296.
  pose proof (Z.mod_le (z + 2147483648) 4294967296 ltac:(lia) ltac:(lia)). lia.
Qed.

(** What the handler has checked and computed when it gets to the loop. *)
Lemma paginationWindow_inr in_ start end_ next :
  paginationWindow in_ = inr (start, end_, next) ->
  0 <= PageSize in_ /\ 0 <= PageSizeOverride in_ /\ 0 < MaxResponse in_ /\
  0 <= start <= MaxResponse in_ /\
  end_ <= MaxResponse in_ /\
  (0 < effectiveSize in_ -> end_ - start <= effectiveSize in_) /\
  next = (if end_ <? MaxResponse in_ then strconv.Itoa end_ else EmptyString).
Proof.
  unfold paginationWindow, effectiveSize.
  destruct (Z.ltb_spec (PageSize in_) 0); [discriminate |].
  destruct (Z.ltb_spec (PageSizeOverride in_) 0); [discriminate |]. cbn [orb].
  destruct (Z.leb_spec (MaxResponse in_) 0); [discriminate |]. cbv zeta.
  set (a := if PageSizeOverride in_ >? 0 then PageSizeOverride in_ else PageSize in_).
  assert (Ha : 0 <= a) by (subst a; destruct (PageSizeOverride in_ >? 0); lia).
  assert (Hgo : forall s0 : Z,
    0 <= s0 <= MaxResponse in_ ->
    (inr (s0,
          (if (if a =? 0 then MaxResponse in_ else int32 (s0 + a)) >? MaxResponse in_
           then MaxResponse in_
           else if a =? 0 then MaxResponse in_ else int32 (s0 + a)),
          (if (if (if a =? 0 then MaxResponse in_ else int32 (s0 + a)) >? MaxResponse in_
               then MaxResponse in_
               else if a =? 0 then MaxResponse in_ else int32 (s0 + a))
              <? MaxResponse in_
           then strconv.Itoa
                  (if (if a =? 0 then MaxResponse in_ else int32 (s0 + a))
                      >? MaxResponse in_
                   then MaxResponse in_
                   else if a =? 0 then MaxResponse in_ else int32 (s0 + a))
           else EmptyString)) : error + Z * Z * string)
    = inr (start, end_, next) ->
    0 <= PageSize in_ /\ 0 <= PageSizeOverride in_ /\ 0 < MaxResponse in_ /\
    0 <= start <= MaxResponse in_ /\
    end_ <= MaxResponse in_ /\
    (0 < a -> end_ - start <= a) /\
    next = (if end_ <? MaxResponse in_ then strconv.Itoa end_ else EmptyString)).
  { intros s0 Hs0 E. injection E as <- <- <-.
    pose proof (int32_le (s0 + a) ltac:(lia)) as Hle.
    repeat split; try lia.
    - destruct (Z.eqb_spec a 0);
        destruct (Z.gtb_spec (MaxResponse in_) (MaxResponse in_)); try lia.
      destruct (Z.gtb_spec (int32 (s0 + a)) (MaxResponse in_)); lia.
    - intros Hpos. destruct (Z.eqb_spec a 0); [lia |].
      destruct (Z.gtb_spec (int32 (s0 + a)) (MaxResponse in_)); lia. }
  destruct (String.eqb (PageToken in_) EmptyString).
  - apply Hgo. lia.
  - destruct (strconv.Atoi (PageToken in_)) as [token|]; [| discriminate].
    destruct (Z.ltb_spec (int32 token) 0); [discriminate |].
    destruct (Z.gtb_spec (int32 token) (MaxResponse in_)); [discriminate |].
    cbn [orb]. apply Hgo. lia.
Qed.

(** X19. Whatever the token and the sizes, a page that [Pagination]
    returns holds consecutive integers, all of them at least 0 and below
    the maximum, and no more of them than the effective page size when
    that is positive: a window sum that wraps around makes the page
    empty, never longer or out of range. *)
Theorem Pagination_page_is_within_bounds
    (in_ : PaginationRequest) (resp : PaginationResponse) :
  isInt32 (MaxResponse in_) ->
  Pagination in_ = Returned (Some resp) None ->
  (exists start end_,
      0 <= start <= MaxResponse in_ /\ end_ <= MaxResponse in_ /\
      PaginationResponse_Responses resp = rangeZ start end_ /\
      NextPageToken resp
      = (if end_ <? MaxResponse in_ then strconv.Itoa end_ else EmptyString)) /\
  Forall (fun x => 0 <= x < MaxResponse in_) (PaginationResponse_Responses resp) /\
  (0 < effectiveSize in_ ->
   Z.of_nat (length (PaginationResponse_Responses resp)) <= effectiveSize in_).
Proof.
  intros Hmax Hpage. unfold Pagination in Hpage.
  destruct (paginationWindow in_) as [err | [[start end_] next]] eqn:Hw;
    [discriminate |].
  apply paginationWindow_inr in Hw
    as (Hp & Ho & Hm & Hstart & Hend & Hsize & Hnext).
  rewrite pageLoop_range in Hpage;
    [| unfold minInt32; lia | unfold isInt32 in Hmax; lia | lia].
  injection Hpage as <-. cbn [PaginationResponse_Responses NextPageToken app].
  split; [| split].
  - exists start, end_. auto.
  - apply Forall_forall. intros x Hx. apply elem_of_rangeZ in Hx. lia.
  - intros Hpos. specialize (Hsize Hpos). unfold rangeZ.
    rewrite length_seqZ. lia.
Qed.

(** The window sum of [lastPageRequest] wraps around: the page is empty. *)
Lemma Pagination_page_is_within_bounds_witness :
  Forall (fun x => 0 <= x < 2147483647) [] /\
  (0 < effectiveSize lastPageRequest ->
   Z.of_nat (length ([] : list Z)) <= effectiveSize lastPageRequest).
Proof.
  exact (proj2 (Pagination_page_is_within_bounds lastPageRequest
                  {| PaginationResponse_Responses := [];
                     NextPageToken := "-2147483296" |}
                  ltac:(vm_compute; split; discriminate)
                  ltac:(vm_compute; reflexivity))).
Defined.

(** X20. The token a page is returned with, fed back, makes the next
    call start where that page ended: with valid sizes and as long as no
    window sum leaves int32, the token of a page that is not the last
    parses to the end of that page, and the next page is the window that
    starts there. Every such page holds at least one item. *)
Theorem Pagination_next_token_resumes (in_ : PaginationRequest) (start : Z) :
  validSizes in_ ->
  tokenStart in_ start ->
  start + effectiveSize in_ <= maxInt32 ->
  windowEnd in_ start < MaxResponse in_ ->
  windowEnd in_ start + effectiveSize in_ <= maxInt32 ->
  start < windowEnd in_ start /\
  strconv.Atoi (windowToken in_ start) = Some (windowEnd in_ start) /\
  Pagination (withToken in_ (windowToken in_ start))
  = Returned
      (Some {| PaginationResponse_Responses :=
                 rangeZ (windowEnd in_ start) (windowEnd in_ (windowEnd in_ start));
               NextPageToken := windowToken in_ (windowEnd in_ start) |})
      None.
Proof.
  intros Hv Htok Hsum Hmore Hsum'.
  assert (Hstart : 0 <= start <= MaxResponse in_).
  { destruct Htok as [[_ ->] | (_ & _ & ?)]; [| assumption].
    destruct Hv as (_ & _ & ?). lia. }
  pose proof (windowEnd_bounds in_ start Hv Hstart) as Hb.
  assert (Htoken : windowToken in_ start = strconv.Itoa (windowEnd in_ start)).
  { unfold windowToken. destruct (Z.ltb_spec (windowEnd in_ start) (MaxResponse in_));
      [reflexivity | lia]. }
  assert (Hparse : strconv.Atoi (windowToken in_ start) = Some (windowEnd in_ start)).
  { rewrite Htoken. apply Atoi_Itoa. destruct Hv as (_ & _ & Hm).
    unfold isInt64, minInt64, maxInt64. unfold maxInt32 in Hm. lia. }
  split; [| split; [exact Hparse |]].
  - revert Hmore. unfold windowEnd, effectiveSize. destruct Hv as (Hp & Ho & Hm).
    destruct (Z.gtb_spec (PageSizeOverride in_) 0);
      match goal with |- context [if ?a =? 0 then _ else _] =>
        destruct (Z.eqb_spec a 0) end; lia.
  - apply (Pagination_no_overflow (withToken in_ (windowToken in_ start))
             (windowEnd in_ start)).
    + apply validSizes_withToken, Hv.
    + right. cbn [PageToken MaxResponse withToken]. split; [| split].
      * rewrite Htoken. apply Itoa_nonempty.
      * exact Hparse.
      * lia.
    + exact Hsum'.
Qed.

(** Pages of 3 out of 10: the token of the first page is 3. *)
Lemma Pagination_next_token_resumes_witness :
  Pagination {| PageSize := 3; PageSizeOverride := 0;
                PageToken := "3"; MaxResponse := 10 |}
  = Returned
      (Some {| PaginationResponse_Responses := [3; 4; 5];
               NextPageToken := "6" |})
      None.
Proof.
  assert (Hv : validSizes {| PageSize := 3; PageSizeOverride := 0;
                             PageToken := EmptyString; MaxResponse := 10 |})
    by (unfold validSizes, maxInt32; cbn; lia).
  assert (Htok : tokenStart {| PageSize := 3; PageSizeOverride := 0;
                               PageToken := EmptyString; MaxResponse := 10 |} 0)
    by (left; split; reflexivity).
  exact (proj2 (proj2 (Pagination_next_token_resumes _ 0 Hv Htok
                         ltac:(vm_compute; discriminate)
                         ltac:(vm_compute; reflexivity)
                         ltac:(vm_compute; discriminate)))).
Defined.

End PaginationMore.

(* ===================================================================== *)
(** * Expand and Collect: words out, words in *)
(* ===================================================================== *)

(** Decides a test on bytes that cannot hold. *)
Ltac absurd_test E :=
  exfalso; revert E;
  repeat match goal with
         | |- context [strings.byteOf ?c =? ?y] => destruct (strings.byteOf c =? y)
         | |- context [?x <=? strings.byteOf ?c] => destruct (x <=? strings.byteOf c)
         | |- context [strings.byteOf ?c <=? ?y] => destruct (strings.byteOf c <=? y)
         end;
  cbv; discriminate.

(** Pushes [+:+] under the characters of its first argument. *)
Ltac push_append :=
  repeat match goal with
         | |- context [String ?c ?s +:+ ?t] =>
             change (String c s +:+ t) with (String c (s +:+ t))
         | |- context [EmptyString +:+ ?t] =>
             change (EmptyString +:+ t) with t
         end.

(** Walks down the tests of [strings.spaceWidth] in the goal and in the
    hypothesis [H]. *)
Ltac walk_width H :=
  repeat match type of H with
         | context [if ?b then _ else _] =>
             let E := fresh "E" in
             destruct b eqn:E; try discriminate H
         end;
  repeat match goal with
         | |- context [if ?b then _ else _] =>
             let E := fresh "E" in
             destruct b eqn:E; [try absurd_test E |]
         end;
  try reflexivity.

Section WordsFacts.
Import strings.


Lemma append_snoc (cur : string) (c : ascii) (rest : string) :
  (cur +:+ String c EmptyString) +:+ rest = cur +:+ String c rest.
Proof.
  induction cur as [|a cur IH]; [reflexivity |].
  change (String a ((cur +:+ String c EmptyString) +:+ rest)
          = String a (cur +:+ String c rest)).
  f_equal. exact IH.
Qed.

(** A white space rune at the head of a string is at the head of every
    extension of it. *)
Lemma spaceWidth_prefix p q :
  spaceWidth (p +:+ q) = 0%nat -> spaceWidth p = 0%nat.
Proof.
  destruct p as [|c0 [|c1 [|c2 p]]];
    cbv beta iota zeta delta [String.append spaceWidth];
    intros H; [reflexivity | | | exact H].
  - destruct q as [|d0 q]; walk_width H.
  - destruct q as [|d0 q]; walk_width H.
Qed.


Lemma flush_nonempty cur : Forall (fun w => w <> EmptyString) (flush cur).
Proof. destruct cur; constructor; [discriminate | constructor]. Qed.

Lemma fieldsLoop_nonempty s :
  forall skip cur, Forall (fun w => w <> EmptyString) (fieldsLoop s skip cur).
Proof.
  induction s as [|c s IH]; intros skip cur; cbn [fieldsLoop].
  - apply flush_nonempty.
  - destruct skip; [| apply IH].
    destruct (spaceWidth (String c s)); [apply IH |].
    apply Forall_app. split; [apply flush_nonempty | apply IH].
Qed.

Lemma cleanBefore_cleanWord cur rest : cleanBefore cur rest -> cleanWord cur.
Proof.
  induction cur as [|c cur IH]; cbn [cleanBefore cleanWord]; [trivial |].
  intros [H Hrest]. split; [| apply IH, Hrest].
  apply (spaceWidth_prefix (String c cur) rest). exact H.
Qed.

Lemma cleanBefore_snoc cur c rest :
  cleanBefore cur (String c rest) ->
  spaceWidth (String c rest) = 0%nat ->
  cleanBefore (cur +:+ String c EmptyString) rest.
Proof.
  intros Hcur Hc. induction cur as [|a cur IH].
  - push_append. cbn [cleanBefore]. push_append. auto.
  - destruct Hcur as [Ha Hcur]. push_append.
    cbn [cleanBefore]. split; [| apply IH, Hcur].
    push_append. rewrite append_snoc. exact Ha.
Qed.

Lemma flush_clean cur : cleanWord cur -> Forall cleanWord (flush cur).
Proof. intros H. destruct cur; constructor; [exact H | constructor]. Qed.

Lemma fieldsLoop_clean s :
  forall skip cur,
    (skip <> 0%nat -> cur = EmptyString) ->
    cleanBefore cur s ->
    Forall cleanWord (fieldsLoop s skip cur).
Proof.
  induction s as [|c s IH]; intros skip cur Hskip Hcur; cbn [fieldsLoop].
  - apply flush_clean, (cleanBefore_cleanWord cur EmptyString), Hcur.
  - destruct skip as [|k].
    + destruct (spaceWidth (String c s)) as [|k] eqn:Hw.
      * apply IH; [congruence |]. apply cleanBefore_snoc; assumption.
      * apply Forall_app. split.
        -- apply flush_clean, (cleanBefore_cleanWord cur (String c s)), Hcur.
        -- apply IH; [reflexivity | exact I].
    + rewrite (Hskip ltac:(discriminate)). apply IH; [reflexivity | exact I].
Qed.




Lemma Fields_words s :
  Forall cleanWord (Fields s) /\ Forall (fun w => w <> EmptyString) (Fields s).
Proof.
  split.
  - apply fieldsLoop_clean; [congruence | exact I].
  - apply fieldsLoop_nonempty.
Qed.

Lemma expandLoop_sends_prefix words :
  forall stream,
    exists k,
      sent (fst (expandLoop words stream))
      = sent stream ++ map mkEchoResponse (take k words).
Proof.
  induction words as [|word words IH]; intros stream.
  - exists 0%nat. cbn. rewrite app_nil_r. reflexivity.
  - cbn [expandLoop]. unfold Send.
    destruct (sendFault stream (length (sent stream))).
    + exists 0%nat. cbn. rewrite app_nil_r. reflexivity.
    + destruct (IH {| sent := sent stream ++ [ {| EchoResponse_Content := word |} ];
                      sendFault := sendFault stream |}) as [k Hk].
      exists (S k). rewrite Hk. cbn [sent take map]. rewrite <- app_assoc.
      reflexivity.
Qed.








End WordsFacts.

Section WordsClaims.





(** X21. Whatever the transport does, what [Expand] sends is a run of
    the words of the content from the first one on, each in a message of
    its own and in order; and every word of a content is a string that is
    not empty and in which no white space rune starts. *)
Theorem Expand_sends_only_words (in_ : ExpandRequest) (stream : ExpandServer) :
  (exists k,
      sent (fst (Expand in_ stream))
      = sent stream
        ++ map mkEchoResponse
             (take k (strings.Fields (ExpandRequest_Content in_)))) /\
  Forall (fun w => w <> EmptyString /\ cleanWord w)
    (strings.Fields (ExpandRequest_Content in_)).
Proof.
  split.
  - destruct (expandLoop_sends_prefix
                (strings.Fields (ExpandRequest_Content in_)) stream) as [k Hk].
    exists k. unfold Expand.
    destruct (expandLoop (strings.Fields (ExpandRequest_Content in_)) stream)
      as [stream' [err|]]; cbn [fst] in *; [exact Hk |].
    destruct (ExpandRequest_Error in_); exact Hk.
  - destruct (Fields_words (ExpandRequest_Content in_)) as [Hclean Hne].
    apply Forall_forall. intros w Hw.
    rewrite Forall_forall in Hclean, Hne. auto.
Qed.


End WordsClaims.

Section WordsComposition.



End WordsComposition.
